(** * pearpass-lib-vault-core: rate limiter and master-password manager

    A shallow embedding of [src/worklet/rateLimiter.js], of the
    master-password manager that calls into it and of the request stream
    of [src/worklet/app-ipc.js], together with the properties stated about
    them.

    Conventions.
    - JavaScript numbers that hold counters and millisecond timestamps are
      integers here ([Z]); every value the limiter computes stays an exact
      integer in double precision as long as the inputs are safe integers.
    - An [async] method is a computation over an explicit world: it returns
      either a value or a thrown exception, plus the world it leaves behind.
    - [Date.now()] reads a clock that is part of the world; every call
      consumes one reading, so a method that calls it several times may see
      several instants. *)

From Stdlib Require Import ZArith Lia Bool.
From stdpp Require Import base option gmap strings.

Local Open Scope Z_scope.

(** ** Exceptions and results *)

Inductive Exn : Type :=
| JsError (message : string)      (* [throw new Error(message)] *)
| TypeError                       (* calling a property that is not a function *)
| StorageFault.                   (* a rejected promise of the storage object *)

Inductive Result (A : Type) : Type :=
| Returns (a : A)
| Throws (e : Exn).

Arguments Returns {A} a.
Arguments Throws {A} e.

(** ** Computations over a world

    [Comp W A] is an asynchronous method body run to completion: from a
    world it produces a value or an exception, and the world it leaves. *)

Definition Comp (W A : Type) : Type := W -> Result A * W.

Definition ret {W A} (a : A) : Comp W A := fun w => (Returns a, w).
Definition throw {W A} (e : Exn) : Comp W A := fun w => (Throws e, w).
Definition bind {W A B} (m : Comp W A) (k : A -> Comp W B) : Comp W B :=
  fun w => match m w with
           | (Returns a, w') => k a w'
           | (Throws e, w') => (Throws e, w')
           end.
(** [try { body } catch { handler }]: the handler runs in the world the
    failed body left behind. *)
Definition try_catch {W A} (body handler : Comp W A) : Comp W A :=
  fun w => match body w with
           | (Returns a, w') => (Returns a, w')
           | (Throws _, w') => handler w'
           end.

Notation "'let*' x := m 'in' k" := (bind m (fun x => k))
  (at level 10, x name, m at level 100, k at level 200).
Notation "m >> k" := (bind m (fun _ => k))
  (at level 100, k at level 200, right associativity).

Module RateLimiter.

(** *** Module constants (rateLimiter.js, lines 1-10) *)

Definition MAX_ATTEMPTS : Z := 5.
Definition MAX_BACKOFF_MINUTES : Z := 24 * 60.
Definition COOLDOWN_PERIOD_MS : Z := MAX_BACKOFF_MINUTES * 60 * 1000.
Definition STORAGE_KEY : string := "rateLimitData".

Record RateLimitState : Type := mkState {
  consecutiveFailures : Z;
  lockoutUntil : option Z;        (* [None] is JavaScript's [null] *)
  lastAttemptTime : option Z
}.

Definition DEFAULT_DATA : RateLimitState :=
  {| consecutiveFailures := 0; lockoutUntil := None; lastAttemptTime := None |}.

(** *** The caller-supplied storage object

    [setStorage] accepts any JavaScript value, so the bound storage is a
    value of the language: a primitive, or an object that may or may not
    carry [get] and [add] methods.  A method that is present either resolves
    or rejects. *)

Inductive Behaviour : Type := Resolves | Rejects.

Record StorageObject : Type := mkStorage {
  get_method : option Behaviour;  (* [None]: the object has no [get] *)
  add_method : option Behaviour;  (* [None]: the object has no [add] *)
  contents : gmap string RateLimitState
}.

Inductive JsValue : Type :=
| JsUndefined
| JsNull
| JsBool (b : bool)
| JsNumber (n : Z)
| JsNaN
| JsString (s : string)
| JsObject (o : StorageObject).

(** ToBoolean of the language: what [!storage] tests. *)
Definition truthy (v : JsValue) : bool :=
  match v with
  | JsUndefined | JsNull | JsNaN => false
  | JsBool b => b
  | JsNumber n => negb (n =? 0)
  | JsString s => negb (String.eqb s "")
  | JsObject _ => true
  end.

(** *** The world of one limiter instance *)

Record World : Type := mkWorld {
  storage : JsValue;              (* [this.storage], [null] until bound *)
  clock : nat -> Z;               (* the successive readings of [Date.now()] *)
  reads : nat                     (* how many readings were consumed *)
}.

Abbreviation M := (Comp World).

Definition Date_now : M Z :=
  fun w => (Returns (clock w (reads w)),
            {| storage := storage w; clock := clock w; reads := S (reads w) |}).

(** [this.storage.get(key)] *)
Definition storage_get (key : string) : M (option RateLimitState) :=
  fun w => match storage w with
           | JsObject o =>
               match get_method o with
               | Some Resolves => (Returns (contents o !! key), w)
               | Some Rejects => (Throws StorageFault, w)
               | None => (Throws TypeError, w)
               end
           | _ => (Throws TypeError, w)
           end.

(** [this.storage.add(key, value)] *)
Definition storage_add (key : string) (value : RateLimitState) : M unit :=
  fun w => match storage w with
           | JsObject o =>
               match add_method o with
               | Some Resolves =>
                   (Returns tt,
                    {| storage := JsObject {| get_method := get_method o;
                                              add_method := add_method o;
                                              contents := <[key := value]> (contents o) |};
                       clock := clock w; reads := reads w |})
               | Some Rejects => (Throws StorageFault, w)
               | None => (Throws TypeError, w)
               end
           | _ => (Throws TypeError, w)
           end.

(** *** The methods of [class RateLimiter] *)

Definition setStorage (s : JsValue) : M unit :=
  fun w => if negb (truthy s)
           then (Throws (JsError "Storage must have get and add methods"), w)
           else (Returns tt, {| storage := s; clock := clock w; reads := reads w |}).

Definition calculateBackoffDuration (consecutiveFailures : Z) : Z :=
  if consecutiveFailures <? MAX_ATTEMPTS then 0
  else
    let exponent := consecutiveFailures - MAX_ATTEMPTS + 1 in
    let backoffMinutes := 2 ^ exponent in
    let cappedMinutes := Z.min backoffMinutes MAX_BACKOFF_MINUTES in
    cappedMinutes * 60 * 1000.

Definition getData : M RateLimitState :=
  fun w =>
    if negb (truthy (storage w))
    then (Throws (JsError "Storage not initialized."), w)
    else
      try_catch
        (let* data := storage_get STORAGE_KEY in
         ret (match data with Some d => d | None => DEFAULT_DATA end))
        (let backoffMs := calculateBackoffDuration 1 in
         let* t1 := Date_now in
         let* t2 := Date_now in
         ret {| consecutiveFailures := 1;
                lockoutUntil := Some (t1 + backoffMs);
                lastAttemptTime := Some t2 |})
        w.

Definition isLockoutExpired (lockoutUntil : option Z) : M bool :=
  match lockoutUntil with
  | None => ret true
  | Some t => let* now := Date_now in ret (t <=? now)
  end.

Definition shouldGrantFreshStart (lastAttemptTime : option Z) : M bool :=
  match lastAttemptTime with
  | None => ret false
  | Some t => let* now := Date_now in ret (COOLDOWN_PERIOD_MS <=? now - t)
  end.

Definition reset : M unit := storage_add STORAGE_KEY DEFAULT_DATA.

Record Status : Type := mkStatus {
  isLocked : bool;
  lockoutRemainingMs : Z;
  remainingAttempts : Z
}.

Definition getStatus : M Status :=
  let* data := getData in
  let* fresh := shouldGrantFreshStart (lastAttemptTime data) in
  if fresh then
    reset >>
    ret {| isLocked := false; lockoutRemainingMs := 0;
           remainingAttempts := MAX_ATTEMPTS |}
  else
    (* [data.lockoutUntil !== null && this.isLockoutExpired(...)] *)
    let* expired := (match lockoutUntil data with
                | None => ret false
                | Some _ => isLockoutExpired (lockoutUntil data)
                end) in
    if expired then
      ret {| isLocked := false; lockoutRemainingMs := 0; remainingAttempts := 0 |}
    else
      let isLocked := match lockoutUntil data with Some _ => true | None => false end in
      (* [data.lockoutUntil ? Math.max(0, ...) : 0] tests truthiness: the
         timestamp 0 is falsy like [null] *)
      let* lockoutRemainingMs :=
        (match lockoutUntil data with
         | None => ret 0
         | Some t => if t =? 0 then ret 0
                     else let* now := Date_now in ret (Z.max 0 (t - now))
         end) in
      let remainingAttempts :=
        if isLocked then 0
        else Z.max 0 (MAX_ATTEMPTS - consecutiveFailures data) in
      ret {| isLocked := isLocked; lockoutRemainingMs := lockoutRemainingMs;
             remainingAttempts := remainingAttempts |}.

Definition getRemainingAttempts : M Z :=
  let* data := getData in
  let* fresh := shouldGrantFreshStart (lastAttemptTime data) in
  if fresh then ret MAX_ATTEMPTS
  else
    (* [data.lockoutUntil !== null && !this.isLockoutExpired(...)] *)
    let* active := (match lockoutUntil data with
               | None => ret false
               | Some _ => let* e := isLockoutExpired (lockoutUntil data) in ret (negb e)
               end) in
    if active then ret 0
    else ret (Z.max 0 (MAX_ATTEMPTS - consecutiveFailures data)).

Definition recordFailure : M unit :=
  let* data := try_catch getData
            (throw (JsError "Rate limiter unavailable - denying attempt")) in
  let* fresh := shouldGrantFreshStart (lastAttemptTime data) in
  let data :=
    if fresh
    then {| consecutiveFailures := 0; lockoutUntil := None;
            lastAttemptTime := lastAttemptTime data |}
    else data in
  let* expired := (match lockoutUntil data with
              | None => ret false
              | Some _ => isLockoutExpired (lockoutUntil data)
              end) in
  let data :=
    if expired
    then {| consecutiveFailures := consecutiveFailures data; lockoutUntil := None;
            lastAttemptTime := lastAttemptTime data |}
    else data in
  let failures := consecutiveFailures data + 1 in
  let* t := Date_now in
  let backoffMs := calculateBackoffDuration failures in
  let* until := (if 0 <? backoffMs
            then let* now := Date_now in ret (Some (now + backoffMs))
            else ret None) in
  try_catch
    (storage_add STORAGE_KEY
       {| consecutiveFailures := failures; lockoutUntil := until;
          lastAttemptTime := Some t |})
    (throw (JsError "Failed to record attempt - denying access")).

(** *** Vocabulary for the statements *)

(** The record persisted under [STORAGE_KEY], when the bound storage is an
    object. *)
Definition stored (w : World) : option RateLimitState :=
  match storage w with
  | JsObject o => contents o !! STORAGE_KEY
  | _ => None
  end.

(** The clock does not advance during the call: every reading from now on
    is [now].  This is how the statements' single "current time" is
    understood. *)
Definition frozen (now : Z) (w : World) : Prop :=
  forall i : nat, (reads w <= i)%nat -> clock w i = now.

(** The bound storage is an object whose [get] resolves. *)
Definition readable (w : World) (o : StorageObject) : Prop :=
  storage w = JsObject o /\ get_method o = Some Resolves.

(** The bound storage is an object whose [add] resolves. *)
Definition writable (w : World) (o : StorageObject) : Prop :=
  storage w = JsObject o /\ add_method o = Some Resolves.

(** A storage is bound and reading [STORAGE_KEY] from it throws. *)
Definition read_fails (w : World) : Prop :=
  truthy (storage w) = true /\
  exists e, storage_get STORAGE_KEY w = (Throws e, w).

(** A storage is bound and writing to it throws. *)
Definition write_fails (w : World) : Prop :=
  truthy (storage w) = true /\
  forall v, exists e, storage_add STORAGE_KEY v w = (Throws e, w).

(** What [getData] hands out after a successful read. *)
Definition read_state (o : StorageObject) : RateLimitState :=
  match contents o !! STORAGE_KEY with Some d => d | None => DEFAULT_DATA end.

(** The 24h cooldown applies to a state at instant [now]. *)
Definition cooldown_applies (now : Z) (s : RateLimitState) : bool :=
  match lastAttemptTime s with
  | Some t => COOLDOWN_PERIOD_MS <=? now - t
  | None => false
  end.

(** A lockout is set and has run out at instant [now]: the guard
    [lockoutUntil !== null && isLockoutExpired(lockoutUntil)]. *)
Definition expired_at (now : Z) (lockoutUntil : option Z) : bool :=
  match lockoutUntil with Some t => t <=? now | None => false end.

(** What [getStatus] and [getRemainingAttempts] answer for the state [d] at
    instant [now] when no cooldown is pending (used to run the methods in
    the proofs below). *)
Definition status_view (now : Z) (d : RateLimitState) : Status :=
  if expired_at now (lockoutUntil d)
  then {| isLocked := false; lockoutRemainingMs := 0; remainingAttempts := 0 |}
  else
    match lockoutUntil d with
    | Some t =>
        {| isLocked := true;
           lockoutRemainingMs := if t =? 0 then 0 else Z.max 0 (t - now);
           remainingAttempts := 0 |}
    | None =>
        {| isLocked := false; lockoutRemainingMs := 0;
           remainingAttempts := Z.max 0 (MAX_ATTEMPTS - consecutiveFailures d) |}
    end.

Definition attempts_view (now : Z) (d : RateLimitState) : Z :=
  match lockoutUntil d with
  | Some t => if t <=? now
              then Z.max 0 (MAX_ATTEMPTS - consecutiveFailures d)
              else 0
  | None => Z.max 0 (MAX_ATTEMPTS - consecutiveFailures d)
  end.

(** The four steps of the failure-recording rule, as the specification
    words them. *)
Definition step_cooldown (now : Z) (s : RateLimitState) : RateLimitState :=
  if cooldown_applies now s
  then {| consecutiveFailures := 0; lockoutUntil := None;
          lastAttemptTime := lastAttemptTime s |}
  else s.

Definition step_expiry (now : Z) (s : RateLimitState) : RateLimitState :=
  match lockoutUntil s with
  | Some t => if t <=? now
              then {| consecutiveFailures := consecutiveFailures s;
                      lockoutUntil := None;
                      lastAttemptTime := lastAttemptTime s |}
              else s
  | None => s
  end.

Definition step_count (now : Z) (s : RateLimitState) : RateLimitState :=
  {| consecutiveFailures := consecutiveFailures s + 1;
     lockoutUntil := lockoutUntil s;
     lastAttemptTime := Some now |}.

Definition step_lockout (now : Z) (s : RateLimitState) : RateLimitState :=
  let d := calculateBackoffDuration (consecutiveFailures s) in
  {| consecutiveFailures := consecutiveFailures s;
     lockoutUntil := if 0 <? d then Some (now + d) else None;
     lastAttemptTime := lastAttemptTime s |}.

Definition recordFailure_rule (now : Z) (s : RateLimitState) : RateLimitState :=
  step_lockout now (step_count now (step_expiry now (step_cooldown now s))).

(** The data-model invariant of a persisted state: a lockout is only ever
    stored together with a counter that has reached the threshold. *)
Definition lockout_consistent (s : RateLimitState) : Prop :=
  match lockoutUntil s with
  | Some _ => MAX_ATTEMPTS <= consecutiveFailures s
  | None => True
  end.

(** *** Runs of several calls *)

(** [n] calls of [recordFailure] in a row, as a caller that awaits each
    one; the first exception ends the run. *)
Fixpoint recordFailures (n : nat) : M unit :=
  match n with
  | O => ret tt
  | S k => recordFailure >> recordFailures k
  end.

(** The shape of a state written by a failure recorded at [now] that
    brought the counter to [c]. *)
Definition recorded_at (now c : Z) : RateLimitState :=
  {| consecutiveFailures := c;
     lockoutUntil := if 0 <? calculateBackoffDuration c
                     then Some (now + calculateBackoffDuration c) else None;
     lastAttemptTime := Some now |}.

(** The storage object [o] after [v] was written under [STORAGE_KEY]. *)
Definition holding (o : StorageObject) (v : RateLimitState) : StorageObject :=
  {| get_method := get_method o; add_method := add_method o;
     contents := <[STORAGE_KEY := v]> (contents o) |}.

(** A status answer is well-formed: nothing negative, no time left unless
    locked, no attempts left while locked. *)
Definition status_sane (st : Status) : Prop :=
  0 <= lockoutRemainingMs st /\ 0 <= remainingAttempts st /\
  (isLocked st = false -> lockoutRemainingMs st = 0) /\
  (isLocked st = true -> remainingAttempts st = 0).

(** A value that offers neither a working [get] nor a working [add]: a
    primitive, or an object without the two methods. *)
Definition methodless (v : JsValue) : Prop :=
  match v with
  | JsObject o => get_method o = None /\ add_method o = None
  | _ => True
  end.

(** *** A concrete limiter, used to exercise the statements *)

Definition memory_storage (get add : option Behaviour)
    (record : option RateLimitState) : StorageObject :=
  {| get_method := get; add_method := add;
     contents := match record with
                 | Some d => {[ STORAGE_KEY := d ]}
                 | None => ∅
                 end |}.

(** A limiter bound to [st] whose clock shows [now] at every reading. *)
Definition world_at (now : Z) (st : JsValue) : World :=
  {| storage := st; clock := fun _ => now; reads := 0 |}.

End RateLimiter.

(** * The master-password manager

    [src/worklet/masterPasswordManager.js] itself is not among the sources;
    only its test suite is.  The manager and the collaborators it calls are
    therefore modelled from the specification's component design (section
    4.2), its error-handling design (section 7, with sections 1, 2 and 4.1
    on when the rate limiter is called) and its collaborator contracts
    (section 6), with the literal error messages taken from the test
    suite. *)

Module MasterPasswordManager.

(** Modelled from the spec: the crypto collaborators ([hashPassword],
    [getDecryptionKey], [encryptVaultKeyWithHashedPassword],
    [encryptVaultWithKey], [decryptVaultKey]), whose implementations are
    missing.  Randomness is drawn from a numbered source: [fresh_salt n] is
    the salt the n-th draw yields, and likewise for keys and nonces. *)
Class Crypto : Type := {
  Password : Type;
  Salt : Type;
  Hash : Type;
  VaultKey : Type;
  Nonce : Type;
  Ciphertext : Type;
  Hash_eq_dec :: EqDecision Hash;
  fresh_salt : nat -> Salt;
  fresh_key : nat -> VaultKey;
  fresh_nonce : nat -> Nonce;
  getDecryptionKey : Salt -> Password -> Hash;
  seal : Hash -> Nonce -> VaultKey -> Ciphertext;
  decryptVaultKey : Ciphertext -> Nonce -> Hash -> option VaultKey
}.


Section Manager.
Context {C : Crypto}.

(** Modelled from the spec: the records the manager, whose source is
    missing, persists and fetches.  A persisted record is a JavaScript
    object: named fields holding key material. *)
Inductive Field : Type :=
| FCiphertext (c : Ciphertext)
| FNonce (n : Nonce)
| FSalt (s : Salt)
| FHash (h : Hash).

(** Modelled from the spec: the state the missing collaborators of
    [appDeps] keep: the encryption store, the vault store (open under a
    key, or closed), the random source, and the rate limiter behind
    [rateLimitRecordFailure]. *)
Record Session : Type := mkSession {
  encryptionInitialized : bool;
  vaultsInitialized : option VaultKey;
  vaults : gmap string (gmap string Field);
  encryption : gmap string (gmap string Field);
  entropy : nat;
  limiter : RateLimiter.World;
  failuresRecorded : nat
}.

Abbreviation MM := (Comp Session).

(** Modelled from the spec: [getIsEncryptionInitialized] of [appDeps]. *)
Definition getIsEncryptionInitialized : MM bool :=
  fun s => (Returns (encryptionInitialized s), s).

(** Modelled from the spec: [getIsVaultsInitialized] of [appDeps]: whether
    this process already holds an open vault. *)
Definition getIsVaultsInitialized : MM bool :=
  fun s => (Returns (match vaultsInitialized s with Some _ => true | None => false end), s).

(** Modelled from the spec: [encryptionInit] of the encryption store. *)
Definition encryptionInit : MM unit :=
  fun s => (Returns tt,
            {| encryptionInitialized := true;
               vaultsInitialized := vaultsInitialized s;
               vaults := vaults s; encryption := encryption s;
               entropy := entropy s; limiter := limiter s;
               failuresRecorded := failuresRecorded s |}).

(** Modelled from the spec: [masterVaultInit] of the vault store, which
    opens the store under the recovered vault key. *)
Definition masterVaultInit (encryptionKey : VaultKey) (hashedPassword : Hash)
    : MM unit :=
  fun s => (Returns tt,
            {| encryptionInitialized := encryptionInitialized s;
               vaultsInitialized := Some encryptionKey;
               vaults := vaults s; encryption := encryption s;
               entropy := entropy s; limiter := limiter s;
               failuresRecorded := failuresRecorded s |}).

(** Modelled from the spec: [closeVaultsInstance] together with
    [encryptionClose]: the process lets go of the open vault; the durable
    records stay. *)
Definition closeVaultsInstance : MM unit :=
  fun s => (Returns tt,
            {| encryptionInitialized := false;
               vaultsInitialized := None;
               vaults := vaults s; encryption := encryption s;
               entropy := entropy s; limiter := limiter s;
               failuresRecorded := failuresRecorded s |}).

(** Modelled from the spec: [vaultsGet] of the vault store, whose
    implementation is missing: a "durable keyed record store" to which the
    collaborator table (section 6) gives no failure mode.  Whether this
    process holds the vault open is told by [getIsVaultsInitialized]
    alone. *)
Definition vaultsGet (name : string) : MM (option (gmap string Field)) :=
  fun s => (Returns (vaults s !! name), s).

(** Modelled from the spec: [vaultsAdd] of the vault store, likewise
    without a failure mode. *)
Definition vaultsAdd (name : string) (record : gmap string Field) : MM unit :=
  fun s => (Returns tt,
            {| encryptionInitialized := encryptionInitialized s;
               vaultsInitialized := vaultsInitialized s;
               vaults := <[name := record]> (vaults s);
               encryption := encryption s;
               entropy := entropy s; limiter := limiter s;
               failuresRecorded := failuresRecorded s |}).

(** Modelled from the spec: [encryptionGet] of the encryption store, a
    keyed record store openable on its own. *)
Definition encryptionGet (name : string) : MM (option (gmap string Field)) :=
  fun s => (Returns (encryption s !! name), s).

(** Modelled from the spec: [encryptionAdd] of the encryption store. *)
Definition encryptionAdd (name : string) (record : gmap string Field) : MM unit :=
  fun s => (Returns tt,
            {| encryptionInitialized := encryptionInitialized s;
               vaultsInitialized := vaultsInitialized s;
               vaults := vaults s;
               encryption := <[name := record]> (encryption s);
               entropy := entropy s; limiter := limiter s;
               failuresRecorded := failuresRecorded s |}).

(** Modelled from the spec: one draw of the random source behind the
    missing crypto collaborators. *)
Definition draw : MM nat :=
  fun s => (Returns (entropy s),
            {| encryptionInitialized := encryptionInitialized s;
               vaultsInitialized := vaultsInitialized s;
               vaults := vaults s; encryption := encryption s;
               entropy := S (entropy s); limiter := limiter s;
               failuresRecorded := failuresRecorded s |}).

(** Modelled from the spec: [hashPassword], "fresh random salt each call";
    the hash is the one [getDecryptionKey] derives from that salt. *)
Definition hashPassword (passwordBase64 : Password) : MM (Hash * Salt) :=
  let* i := draw in
  let salt := fresh_salt i in
  ret (getDecryptionKey salt passwordBase64, salt).

(** Modelled from the spec: [encryptVaultKeyWithHashedPassword], "generates
    a new random vault key, wraps it". *)
Definition encryptVaultKeyWithHashedPassword (hashedPassword : Hash)
    : MM (Ciphertext * Nonce) :=
  let* i := draw in
  let* j := draw in
  let nonce := fresh_nonce j in
  ret (seal hashedPassword nonce (fresh_key i), nonce).

(** Modelled from the spec: [encryptVaultWithKey], "wraps an existing vault
    key under a new hash". *)
Definition encryptVaultWithKey (hashedPassword : Hash) (vaultKey : VaultKey)
    : MM (Ciphertext * Nonce) :=
  let* j := draw in
  let nonce := fresh_nonce j in
  ret (seal hashedPassword nonce vaultKey, nonce).

(** Modelled from the spec: [constantTimeHashCompare]; only its answer is
    modelled, not its timing. *)
Definition constantTimeHashCompare (a b : Hash) : bool := bool_decide (a = b).

(** Modelled from the spec: [rateLimitRecordFailure] of [appDeps], which
    hands the failure to the rate limiter's [recordFailure]; a denial of
    the limiter is passed on to the caller. *)
Definition rateLimitRecordFailure : MM unit :=
  fun s =>
    let (r, w') := RateLimiter.recordFailure (limiter s) in
    (r, {| encryptionInitialized := encryptionInitialized s;
           vaultsInitialized := vaultsInitialized s;
           vaults := vaults s; encryption := encryption s;
           entropy := entropy s; limiter := w';
           failuresRecorded := S (failuresRecorded s) |}).

(** Modelled from the spec: the vault-store projection [masterEncryption]
    of the master-password record, [{ciphertext, nonce, salt,
    hashedPassword}] (section 3; the manager that builds it is missing). *)
Definition masterEncryptionRecord (ciphertext : Ciphertext) (nonce : Nonce)
    (salt : Salt) (hashedPassword : Hash) : gmap string Field :=
  <["ciphertext" := FCiphertext ciphertext]>
    (<["nonce" := FNonce nonce]>
       (<["salt" := FSalt salt]>
          (<["hashedPassword" := FHash hashedPassword]> ∅))).

(** Modelled from the spec: the encryption-store projection
    [masterPassword], [{ciphertext, nonce, salt}] (section 3). *)
Definition masterPasswordRecord (ciphertext : Ciphertext) (nonce : Nonce)
    (salt : Salt) : gmap string Field :=
  <["ciphertext" := FCiphertext ciphertext]>
    (<["nonce" := FNonce nonce]> (<["salt" := FSalt salt]> ∅)).

(** Modelled from the spec: how the missing manager reads the fields of a
    fetched record; a record that is absent or lacks a field cannot be
    destructured. *)
Definition getCiphertext (r : gmap string Field) : option Ciphertext :=
  match r !! "ciphertext" with Some (FCiphertext c) => Some c | _ => None end.
Definition getNonce (r : gmap string Field) : option Nonce :=
  match r !! "nonce" with Some (FNonce n) => Some n | _ => None end.
Definition getSalt (r : gmap string Field) : option Salt :=
  match r !! "salt" with Some (FSalt s) => Some s | _ => None end.
Definition getHashedPassword (r : gmap string Field) : option Hash :=
  match r !! "hashedPassword" with Some (FHash h) => Some h | _ => None end.

Definition field {A} (o : option A) : MM A :=
  match o with Some a => ret a | None => throw TypeError end.

(** Modelled from the spec: what create and rotate of the missing manager
    return, [{hashedPassword, salt, ciphertext, nonce}]. *)
Record Material : Type := mkMaterial {
  hashedPassword : Hash;
  salt : Salt;
  ciphertext : Ciphertext;
  nonce : Nonce
}.

(** Modelled from the spec: [{ success: true }]. *)
Inductive Success : Type := success_true.

(** Modelled from the spec: the credential bundle handed to
    [initWithCredentials]; a field may be absent. *)
Record Credentials : Type := mkCredentials {
  cred_ciphertext : option Ciphertext;
  cred_nonce : option Nonce;
  cred_hashedPassword : option Hash
}.

(** Modelled from the spec: the step "persist both projections" of the
    missing manager: the vault-store write, then the encryption-store
    write, from one material. *)
Definition persistProjections (m : Material) : MM unit :=
  vaultsAdd "masterEncryption"
    (masterEncryptionRecord (ciphertext m) (nonce m) (salt m) (hashedPassword m)) >>
  encryptionAdd "masterPassword"
    (masterPasswordRecord (ciphertext m) (nonce m) (salt m)).

(** Modelled from the spec: [createMasterPassword] (section 4.2): initialise
    the encryption subsystem, hash the password, produce a freshly
    generated encrypted vault key, decrypt it locally, initialise the vault
    store with the key, persist both projections, return the material.
    The specification does not say what happens when the local decryption
    yields nothing; as on the other paths it is taken to fail with the
    decryption error, before anything is persisted. *)
Definition createMasterPassword (passwordBase64 : Password) : MM Material :=
  let* ready := getIsEncryptionInitialized in
  (if ready then ret tt else encryptionInit) >>
  let* hs := hashPassword passwordBase64 in
  let* cn := encryptVaultKeyWithHashedPassword hs.1 in
  match decryptVaultKey cn.1 cn.2 hs.1 with
  | None => throw (JsError "Error decrypting vault key")
  | Some vaultKey =>
      masterVaultInit vaultKey hs.1 >>
      let m := {| hashedPassword := hs.1; salt := hs.2;
                  ciphertext := cn.1; nonce := cn.2 |} in
      persistProjections m >>
      ret m
  end.

(** Modelled from the spec: [initWithPassword] (section 4.2), with its two
    mutually exclusive paths: with the vault already open the derived hash
    is compared with the stored one and nothing is decrypted; with the
    vault not open the stored ciphertext is decrypted.  A failed
    verification on either path records a failure in the rate limiter
    before failing with the path's message: section 4.2 names the recording
    on the decryption path, and sections 1 ("consults the rate limiter on
    every failed verification"), 4.1 ([recordFailure] "must be called after
    every failed verification") and 7 ("on the password-entry paths always
    trigger [recordFailure] exactly once") ask for it on the comparison path
    as well. *)
Definition initWithPassword (passwordBase64 : Password) : MM Success :=
  let* opened := getIsVaultsInitialized in
  if opened then
    (* vault already open: compare hashes, never decrypt *)
    let* r := vaultsGet "masterEncryption" in
    let* r := field r in
    let* salt := field (getSalt r) in
    let* hashedPassword := field (getHashedPassword r) in
    let derived := getDecryptionKey salt passwordBase64 in
    if negb (constantTimeHashCompare hashedPassword derived)
    then
      rateLimitRecordFailure >>
      throw (JsError "Provided credentials do not match existing master encryption")
    else ret success_true
  else
    (* vault not open: decrypt the stored vault key *)
    let* r := encryptionGet "masterPassword" in
    let* r := field r in
    let* ciphertext := field (getCiphertext r) in
    let* nonce := field (getNonce r) in
    let* salt := field (getSalt r) in
    let derived := getDecryptionKey salt passwordBase64 in
    match decryptVaultKey ciphertext nonce derived with
    | None =>
        rateLimitRecordFailure >>
        throw (JsError "Error decrypting vault key")
    | Some vaultKey =>
        masterVaultInit vaultKey derived >>
        ret success_true
    end.

(** Modelled from the spec: [updateMasterPassword] (section 4.2, steps 1 to
    5).  A mismatch "fails with invalid password, no further state is
    touched": none of the steps 2 to 5 runs and both projections stay as
    they are; being a failed verification on a password-entry path, it is
    recorded in the rate limiter first (sections 1, 4.1 and 7, as for
    [initWithPassword]).  A decryption that yields nothing after a match is
    taken to fail with the decryption error. *)
Definition updateMasterPassword (currentPassword newPassword : Password)
    : MM Material :=
  let* r := vaultsGet "masterEncryption" in
  let* r := field r in
  let* oldCiphertext := field (getCiphertext r) in
  let* oldNonce := field (getNonce r) in
  let* oldSalt := field (getSalt r) in
  let* oldHash := field (getHashedPassword r) in
  let derived := getDecryptionKey oldSalt currentPassword in
  if negb (constantTimeHashCompare oldHash derived)
  then
    rateLimitRecordFailure >>
    throw (JsError "Invalid password")
  else
    match decryptVaultKey oldCiphertext oldNonce derived with
    | None => throw (JsError "Error decrypting vault key")
    | Some vaultKey =>
        let* hs := hashPassword newPassword in
        let* cn := encryptVaultWithKey hs.1 vaultKey in
        let m := {| hashedPassword := hs.1; salt := hs.2;
                    ciphertext := cn.1; nonce := cn.2 |} in
        persistProjections m >>
        ret m
    end.

(** Modelled from the spec: [initWithCredentials] (section 4.2): all three
    fields are checked before any cryptographic work. *)
Definition initWithCredentials (c : Credentials) : MM Success :=
  match cred_ciphertext c, cred_nonce c, cred_hashedPassword c with
  | Some ciphertext, Some nonce, Some hashedPassword =>
      let* ready := getIsEncryptionInitialized in
      (if ready then ret tt else encryptionInit) >>
      match decryptVaultKey ciphertext nonce hashedPassword with
      | None => throw (JsError "Error decrypting vault key")
      | Some vaultKey =>
          masterVaultInit vaultKey hashedPassword >>
          ret success_true
      end
  | _, _, _ => throw (JsError "Missing required parameters")
  end.

(** *** The manager as a transition system *)

Inductive Operation : Type :=
| CreateMasterPassword (passwordBase64 : Password)
| InitWithPassword (passwordBase64 : Password)
| UpdateMasterPassword (currentPassword newPassword : Password)
| InitWithCredentials (c : Credentials)
| CloseVaultsInstance.

(** The session an operation leaves behind, whether it returned or threw. *)
Definition perform (op : Operation) (s : Session) : Session :=
  match op with
  | CreateMasterPassword p => (createMasterPassword p s).2
  | InitWithPassword p => (initWithPassword p s).2
  | UpdateMasterPassword cur new => (updateMasterPassword cur new s).2
  | InitWithCredentials c => (initWithCredentials c s).2
  | CloseVaultsInstance => (closeVaultsInstance s).2
  end.

(** Before any master password exists neither projection is stored. *)
Definition pristine (s : Session) : Prop :=
  vaults s !! "masterEncryption" = None /\
  encryption s !! "masterPassword" = None.

Inductive reachable : Session -> Prop :=
| reachable_pristine s : pristine s -> reachable s
| reachable_perform s op : reachable s -> reachable (perform op s).

(** *** Vocabulary for the statements *)

Definition triple (r : gmap string Field)
    : option Field * option Field * option Field :=
  (r !! "ciphertext", r !! "nonce", r !! "salt").

(** Both projections are absent, or both are present and encode the same
    (ciphertext, nonce, salt). *)
Definition projections_agree (s : Session) : Prop :=
  match vaults s !! "masterEncryption", encryption s !! "masterPassword" with
  | Some v, Some e =>
      triple v = triple e /\
      exists c n sa, triple e = (Some (FCiphertext c), Some (FNonce n), Some (FSalt sa))
  | None, None => True
  | _, _ => False
  end.

(** The encryption-store projection holds no verification hash, under any
    field name. *)
Definition hash_confined (s : Session) : Prop :=
  forall e, encryption s !! "masterPassword" = Some e ->
            e !! "hashedPassword" = None /\
            forall name h, e !! name <> Some (FHash h).

(** Both projections were written from the same material. *)
Definition written_together (s : Session) : Prop :=
  exists m : Material,
    vaults s !! "masterEncryption"
    = Some (masterEncryptionRecord (ciphertext m) (nonce m) (salt m)
              (hashedPassword m)) /\
    encryption s !! "masterPassword"
    = Some (masterPasswordRecord (ciphertext m) (nonce m) (salt m)).

(** Both projections are as they were. *)
Definition projections_untouched (s s' : Session) : Prop :=
  vaults s' !! "masterEncryption" = vaults s !! "masterEncryption" /\
  encryption s' !! "masterPassword" = encryption s !! "masterPassword".








End Manager.

(** *** A concrete set of collaborators, used to exercise the statements

    Hashes are (salt, password) pairs and a ciphertext simply lists what it
    was sealed from, so every contract holds by construction. *)

Definition toyCrypto : Crypto :=
  {| Password := string;
     Salt := nat;
     Hash := nat * string;
     VaultKey := nat;
     Nonce := nat;
     Ciphertext := (nat * string) * nat * nat;
     fresh_salt := fun i => i;
     fresh_key := fun i => i;
     fresh_nonce := fun i => i;
     getDecryptionKey := fun s p => (s, p);
     seal := fun h n k => (h, n, k);
     decryptVaultKey := fun c n h =>
       if bool_decide (c.1.1 = h /\ c.1.2 = n) then Some c.2 else None |}.

(** A session of a fresh installation, with a working limiter whose clock
    shows [now]. *)
Definition freshSession (now : Z) : @Session toyCrypto :=
  {| encryptionInitialized := false;
     vaultsInitialized := None;
     vaults := ∅;
     encryption := ∅;
     entropy := 0;
     limiter := RateLimiter.world_at now
                  (RateLimiter.JsObject
                     (RateLimiter.memory_storage (Some RateLimiter.Resolves)
                        (Some RateLimiter.Resolves) None));
     failuresRecorded := 0 |}.

End MasterPasswordManager.

(** * The request stream of the IPC entry point

    [src/worklet/app-ipc.js], lines 25-46: [createRequestStream] hands the
    command handler a minimal stream over a file named in the request, and
    queues a microtask that delivers the file to the listeners registered
    by then.  The encoder and the file system are an environment; a
    listener is a value of the language, and a function among them is
    described by what it does when called: the listeners it registers on
    the stream while running, and whether it returns or throws. *)

Module AppIpc.

(** A value parsed from the JSON text of a request. *)
Inductive JsonValue : Type :=
| JNull
| JBool (b : bool)
| JNumber (n : Z)
| JString (s : string)
| JStructured.                   (* an array or an object *)

(** ToBoolean on parsed JSON ([NaN] cannot occur). *)
Definition json_truthy (v : JsonValue) : bool :=
  match v with
  | JNull => false
  | JBool b => b
  | JNumber n => negb (n =? 0)
  | JString s => negb (String.eqb s "")
  | JStructured => true
  end.

(** The [data] member of a request; a member that is missing reads as
    [undefined]. *)
Record RequestData : Type := mkRequestData {
  filePath : option JsonValue;
  key : option JsonValue;
  name : option JsonValue
}.

(** What a listener is called with. *)
Inductive Arg : Type :=
| Bytes (b : string)             (* a buffer *)
| NoArgument                     (* [listeners.end?.()] *)
| Caught (e : Exn).              (* [listeners.error?.(err)] *)

#[local] Unset Elimination Schemes.
Inductive Callback : Type :=
| Nullish                        (* [undefined] or [null] was registered *)
| NotCallable                    (* some other value that is no function *)
| Function (id : nat) (run : Arg -> list (string * Callback) * option Exn).
#[local] Set Elimination Schemes.

Inductive Event : Type :=
| Called (event : string) (id : nat) (arg : Arg)
| Encoded
| ReadAttempt (path : option JsonValue).

Record Env : Type := mkEnv {
  encode : option JsonValue -> option JsonValue -> Result string;
  readFileSync : option JsonValue -> Result string
}.

(** The [listeners] object of one stream, and what has happened so far. *)
Record Task : Type := mkTask {
  listeners : gmap string Callback;
  trace : list Event
}.

(** [stream.on(event, cb)]: [listeners[event] = cb; return stream]. *)
Definition on (event : string) (cb : Callback) (t : Task) : Task :=
  {| listeners := <[event := cb]> (listeners t); trace := trace t |}.

Definition register (t : Task) (r : string * Callback) : Task := on r.1 r.2 t.

Definition log (e : Event) : Comp Task unit :=
  fun t => (Returns tt, {| listeners := listeners t; trace := trace t ++ [e] |}).

(** [cenc.encode(cenc.json, { key: data.key, name: data.name })] *)
Definition encodeMeta (env : Env) (data : RequestData) : Comp Task Arg :=
  log Encoded >>
  fun t => match encode env (key data) (name data) with
           | Returns b => (Returns (Bytes b), t)
           | Throws e => (Throws e, t)
           end.

(** [fs.readFileSync(data.filePath)] *)
Definition readFile (env : Env) (data : RequestData) : Comp Task Arg :=
  log (ReadAttempt (filePath data)) >>
  fun t => match readFileSync env (filePath data) with
           | Returns b => (Returns (Bytes b), t)
           | Throws e => (Throws e, t)
           end.

(** [listeners[event]?.(argument)]: the listener is looked up first; when it
    is nullish nothing else happens, the argument is not even evaluated;
    otherwise the argument is evaluated, and then the listener is called,
    which is a TypeError when it is no function. *)
Definition emit (event : string) (argument : Comp Task Arg) : Comp Task unit :=
  fun t =>
    match listeners t !! event with
    | None | Some Nullish => (Returns tt, t)
    | Some cb =>
        match argument t with
        | (Throws e, t') => (Throws e, t')
        | (Returns a, t') =>
            match cb with
            | Function id run =>
                let t'' := foldl register
                             {| listeners := listeners t';
                                trace := trace t' ++ [Called event id a] |}
                             (run a).1 in
                match (run a).2 with
                | None => (Returns tt, t'')
                | Some e => (Throws e, t'')
                end
            | _ => (Throws TypeError, t')
            end
        end
    end.

(** [try { body } catch (err) { handler(err) }] *)
Definition try_catch_with {W A} (body : Comp W A) (handler : Exn -> Comp W A)
    : Comp W A :=
  fun w => match body w with
           | (Returns a, w') => (Returns a, w')
           | (Throws e, w') => handler e w'
           end.

(** The microtask queued by [createRequestStream] (lines 34-43). *)
Definition deliver (env : Env) (data : RequestData) : Comp Task unit :=
  try_catch_with
    (emit "data" (encodeMeta env data) >>
     emit "data" (readFile env data) >>
     emit "end" (ret NoArgument))
    (fun err => emit "error" (ret (Caught err))).

(** [createRequestStream()]: a stream with no listeners yet when the
    request names a file, [undefined] otherwise ([data] itself may be
    missing). *)
Definition createRequestStream (data : option RequestData) : option Task :=
  match data with
  | Some d =>
      match filePath d with
      | Some p => if json_truthy p
                  then Some {| listeners := ∅; trace := [] |}
                  else None
      | None => None
      end
  | None => None
  end.

(** *** Vocabulary for the statements *)

Definition calls (event : string) (l : list Event) : nat :=
  length (List.filter (fun e => match e with
                                | Called ev _ _ => bool_decide (ev = event)
                                | _ => false
                                end) l).

Definition reads_of (l : list Event) : nat :=
  length (List.filter (fun e => match e with
                                | ReadAttempt _ => true
                                | _ => false
                                end) l).

(** The event is a call of one of the three listeners the stream knows,
    or an access to the environment. *)
Definition stream_event (e : Event) : bool :=
  match e with
  | Called ev _ _ =>
      String.eqb ev "data" || String.eqb ev "end" || String.eqb ev "error"
  | _ => true
  end.

(** Evaluating the argument adds [pre] to the trace and touches nothing
    else. *)
Definition traced (pre : list Event) (argument : Comp Task Arg) : Prop :=
  forall t, exists r,
    argument t = (r, {| listeners := listeners t; trace := trace t ++ pre |}).

(** The discipline of one delivery, as a property of what it adds to the
    trace: only the three listeners are called, data at most twice, end and
    error at most once, the file is read at most once and only in a
    delivery that calls a data listener, and a call of the error listener
    is the last thing that happens. *)
Definition disciplined (added : list Event) : Prop :=
  forallb stream_event added = true /\
  (calls "data" added <= 2)%nat /\ (calls "end" added <= 1)%nat /\
  (calls "error" added <= 1)%nat /\ (reads_of added <= 1)%nat /\
  (reads_of added = 1%nat -> (1 <= calls "data" added)%nat) /\
  (calls "error" added = 1%nat ->
   exists pre id a, added = pre ++ [Called "error" id a]).

(** A listener that only receives: it registers nothing and returns. *)
Definition receiver (id : nat) : Callback :=
  Function id (fun _ => ([], None)).

End AppIpc.

(** * Properties of the rate limiter *)

Section RateLimiterProperties.
Import RateLimiter.

(** ** Running the computations *)

Lemma frozen_reading now w i :
  frozen now w -> (reads w <= i)%nat -> clock w i = now.
Proof. intros H Hi. exact (H i Hi). Qed.

Lemma Date_now_frozen now w :
  frozen now w ->
  exists w', Date_now w = (Returns now, w') /\ frozen now w' /\
             storage w' = storage w.
Proof.
  intros H. eexists. unfold Date_now. rewrite (H (reads w)) by lia.
  split; [reflexivity|]. split; [|reflexivity].
  intros i Hi. cbn in Hi. apply H. lia.
Qed.

Lemma getData_readable w o :
  readable w o -> getData w = (Returns (read_state o), w).
Proof.
  intros [Hs Hg]. unfold getData, try_catch, bind, storage_get, read_state.
  rewrite Hs. cbn. rewrite Hg. reflexivity.
Qed.

Lemma calculateBackoffDuration_below (n : Z) :
  n < 5 -> calculateBackoffDuration n = 0.
Proof.
  intros H. unfold calculateBackoffDuration, MAX_ATTEMPTS.
  destruct (Z.ltb_spec n 5); [reflexivity | lia].
Qed.

Lemma calculateBackoffDuration_above (n : Z) :
  5 <= n ->
  calculateBackoffDuration n = Z.min (2 ^ (n - 4) * 60 * 1000) (24 * 60 * 60 * 1000).
Proof.
  intros H. unfold calculateBackoffDuration, MAX_ATTEMPTS, MAX_BACKOFF_MINUTES.
  destruct (Z.ltb_spec n 5); [lia|].
  replace (n - 5 + 1) with (n - 4) by lia.
  cbv zeta. generalize (2 ^ (n - 4)). intros p. lia.
Qed.

Lemma calculateBackoffDuration_positive (n : Z) :
  (0 <? calculateBackoffDuration n) = (5 <=? n).
Proof.
  destruct (Z.leb_spec 5 n) as [H|H].
  - rewrite calculateBackoffDuration_above by assumption.
    assert (0 < 2 ^ (n - 4)) by (apply Z.pow_pos_nonneg; lia).
    apply Z.ltb_lt. lia.
  - rewrite calculateBackoffDuration_below by assumption. reflexivity.
Qed.

Lemma bind_returns {W A B} (m : Comp W A) (k : A -> Comp W B) w a w' :
  m w = (Returns a, w') -> bind m k w = k a w'.
Proof. intros H. unfold bind. rewrite H. reflexivity. Qed.

Lemma bind_throws {W A B} (m : Comp W A) (k : A -> Comp W B) w e w' :
  m w = (Throws e, w') -> bind m k w = (Throws e, w').
Proof. intros H. unfold bind. rewrite H. reflexivity. Qed.

Lemma bind_bind {W A B C} (m : Comp W A) (k1 : A -> Comp W B)
    (k2 : B -> Comp W C) w :
  bind (bind m k1) k2 w = bind m (fun a => bind (k1 a) k2) w.
Proof. unfold bind. destruct (m w) as [[a|e] w']; reflexivity. Qed.

Lemma shouldGrantFreshStart_frozen now w s :
  frozen now w ->
  exists w', shouldGrantFreshStart (lastAttemptTime s) w
             = (Returns (cooldown_applies now s), w') /\
             frozen now w' /\ storage w' = storage w.
Proof.
  intros H. unfold shouldGrantFreshStart, cooldown_applies.
  destruct (lastAttemptTime s) as [t|].
  - destruct (Date_now_frozen now w H) as (w' & Hn & Hf & Hs).
    exists w'. rewrite (bind_returns _ _ _ _ _ Hn). auto.
  - exists w. auto.
Qed.

Lemma expiry_guard_frozen now w (l : option Z) :
  frozen now w ->
  exists w', (match l with
              | None => ret false
              | Some _ => isLockoutExpired l
              end) w = (Returns (expired_at now l), w') /\
             frozen now w' /\ storage w' = storage w.
Proof.
  intros H. destruct l as [t|]; unfold isLockoutExpired, expired_at.
  - destruct (Date_now_frozen now w H) as (w' & Hn & Hf & Hs).
    exists w'. rewrite (bind_returns _ _ _ _ _ Hn). auto.
  - exists w. auto.
Qed.

Lemma storage_add_writable w o key v :
  writable w o ->
  exists w', storage_add key v w = (Returns tt, w') /\
             storage w' = JsObject {| get_method := get_method o;
                                      add_method := add_method o;
                                      contents := <[key := v]> (contents o) |} /\
             clock w' = clock w /\ reads w' = reads w.
Proof.
  intros [Hs Ha]. unfold storage_add. rewrite Hs, Ha. eexists. eauto.
Qed.

Lemma recordFailure_rule_fields now s :
  let s1 := step_expiry now (step_cooldown now s) in
  let n := consecutiveFailures s1 + 1 in
  recordFailure_rule now s
  = {| consecutiveFailures := n;
       lockoutUntil := if 0 <? calculateBackoffDuration n
                       then Some (now + calculateBackoffDuration n) else None;
       lastAttemptTime := Some now |}.
Proof. reflexivity. Qed.

(** [recordFailure] once [getData] has handed out [d]: with the clock
    standing still, all that is left is the guarded write of the state the
    rule prescribes. *)
Lemma recordFailure_after_getData now w w0 d :
  getData w = (Returns d, w0) -> frozen now w0 ->
  exists w4,
    recordFailure w
    = try_catch (storage_add STORAGE_KEY (recordFailure_rule now d))
        (throw (JsError "Failed to record attempt - denying access")) w4 /\
    frozen now w4 /\ storage w4 = storage w0.
Proof.
  intros Hg Hf. unfold recordFailure.
  assert (Hd : try_catch getData
                 (throw (JsError "Rate limiter unavailable - denying attempt")) w
               = (Returns d, w0)).
  { unfold try_catch. rewrite Hg. reflexivity. }
  rewrite (bind_returns _ _ _ _ _ Hd).
  destruct (shouldGrantFreshStart_frozen now w0 d Hf) as (w1 & H1 & Hf1 & Hs1).
  rewrite (bind_returns _ _ _ _ _ H1).
  set (s1 := if cooldown_applies now d then _ else _).
  assert (Es1 : s1 = step_cooldown now d) by reflexivity.
  destruct (expiry_guard_frozen now w1 (lockoutUntil s1) Hf1)
    as (w2 & H2 & Hf2 & Hs2).
  rewrite (bind_returns _ _ _ _ _ H2).
  set (s2 := if expired_at now (lockoutUntil s1) then _ else _).
  assert (Es2 : s2 = step_expiry now s1).
  { unfold s2, step_expiry, expired_at.
    destruct (lockoutUntil s1) as [t|] eqn:El; [|destruct s1; cbn in *; congruence].
    reflexivity. }
  destruct (Date_now_frozen now w2 Hf2) as (w3 & H3 & Hf3 & Hs3).
  rewrite (bind_returns _ _ _ _ _ H3).
  set (d' := calculateBackoffDuration (consecutiveFailures s2 + 1)).
  assert (Hu : exists w4,
             (if 0 <? d' then let* now0 := Date_now in ret (Some (now0 + d'))
              else ret None) w3
             = (Returns (if 0 <? d' then Some (now + d') else None), w4) /\
             frozen now w4 /\ storage w4 = storage w3).
  { destruct (0 <? d').
    - destruct (Date_now_frozen now w3 Hf3) as (w4 & H4 & Hf4 & Hs4).
      exists w4. rewrite (bind_returns _ _ _ _ _ H4). auto.
    - exists w3. auto. }
  destruct Hu as (w4 & H4 & Hf4 & Hs4).
  rewrite (bind_returns _ _ _ _ _ H4).
  exists w4. split; [|split; [assumption | congruence]].
  rewrite recordFailure_rule_fields. cbv zeta.
  rewrite <- Es1, <- Es2. reflexivity.
Qed.

Lemma guarded_write_writable w o v (msg : string) :
  writable w o ->
  exists w', try_catch (storage_add STORAGE_KEY v) (throw (JsError msg)) w
             = (Returns tt, w') /\
             stored w' = Some v /\ clock w' = clock w /\ reads w' = reads w.
Proof.
  intros Hw.
  destruct (storage_add_writable w o STORAGE_KEY v Hw) as (w' & H & Hs & Hc & Hr).
  exists w'. unfold try_catch. rewrite H. split; [reflexivity|].
  split; [|auto]. unfold stored. rewrite Hs. cbn. apply lookup_insert_eq.
Qed.

Lemma guarded_write_fails w v (msg : string) :
  write_fails w ->
  try_catch (storage_add STORAGE_KEY v) (throw (JsError msg)) w
  = (Throws (JsError msg), w).
Proof.
  intros [_ Hw]. destruct (Hw v) as [e He].
  unfold try_catch. rewrite He. reflexivity.
Qed.

(** Running [recordFailure] against a storage that reads and writes, with
    the clock standing still. *)
Lemma recordFailure_runs now w o :
  readable w o -> writable w o -> frozen now w ->
  exists w', recordFailure w = (Returns tt, w') /\
             stored w' = Some (recordFailure_rule now (read_state o)) /\
             frozen now w'.
Proof.
  intros Hr Hw Hf.
  destruct (recordFailure_after_getData now w w (read_state o)
              (getData_readable w o Hr) Hf) as (w4 & Hrun & Hf4 & Hs4).
  assert (Hw4 : writable w4 o).
  { destruct Hw as [Hs Ha]. split; [congruence | exact Ha]. }
  destruct (guarded_write_writable w4 o (recordFailure_rule now (read_state o))
              "Failed to record attempt - denying access" Hw4)
    as (w5 & H5 & Hst & Hc & Hrd).
  exists w5. rewrite Hrun, H5. split; [reflexivity|]. split; [assumption|].
  intros i Hi. rewrite Hc. apply Hf4. lia.
Qed.

(** [getStatus] once [getData] has handed out [d], cooldown pending: what
    is left is the reset and the fixed answer. *)
Lemma getStatus_after_getData_fresh now w w0 d :
  getData w = (Returns d, w0) -> frozen now w0 ->
  cooldown_applies now d = true ->
  exists w1,
    getStatus w
    = (reset >> ret {| isLocked := false; lockoutRemainingMs := 0;
                       remainingAttempts := MAX_ATTEMPTS |}) w1 /\
    frozen now w1 /\ storage w1 = storage w0.
Proof.
  intros Hg Hf Hc. unfold getStatus.
  rewrite (bind_returns _ _ _ _ _ Hg).
  destruct (shouldGrantFreshStart_frozen now w0 d Hf) as (w1 & H1 & Hf1 & Hs1).
  rewrite (bind_returns _ _ _ _ _ H1), Hc. exists w1. auto.
Qed.

(** [getStatus] once [getData] has handed out [d], no cooldown pending: no
    write happens and the answer is [status_view]. *)
Lemma getStatus_after_getData now w w0 d :
  getData w = (Returns d, w0) -> frozen now w0 ->
  cooldown_applies now d = false ->
  exists w1, getStatus w = (Returns (status_view now d), w1) /\
             frozen now w1 /\ storage w1 = storage w0.
Proof.
  intros Hg Hf Hc. unfold getStatus.
  rewrite (bind_returns _ _ _ _ _ Hg).
  destruct (shouldGrantFreshStart_frozen now w0 d Hf) as (w1 & H1 & Hf1 & Hs1).
  rewrite (bind_returns _ _ _ _ _ H1), Hc.
  destruct (expiry_guard_frozen now w1 (lockoutUntil d) Hf1)
    as (w2 & H2 & Hf2 & Hs2).
  rewrite (bind_returns _ _ _ _ _ H2). unfold status_view.
  destruct (expired_at now (lockoutUntil d)) eqn:He.
  - exists w2. split; [reflexivity|]. split; [assumption | congruence].
  - destruct (lockoutUntil d) as [t|].
    + destruct (t =? 0).
      * exists w2. split; [reflexivity|]. split; [assumption | congruence].
      * destruct (Date_now_frozen now w2 Hf2) as (w3 & H3 & Hf3 & Hs3).
        rewrite bind_bind, (bind_returns _ _ _ _ _ H3).
        exists w3. split; [reflexivity|]. split; [assumption | congruence].
    + exists w2. split; [reflexivity|]. split; [assumption | congruence].
Qed.

Lemma getRemainingAttempts_after_getData now w w0 d :
  getData w = (Returns d, w0) -> frozen now w0 ->
  exists w1,
    getRemainingAttempts w
    = (Returns (if cooldown_applies now d then MAX_ATTEMPTS
                else attempts_view now d), w1) /\
    frozen now w1 /\ storage w1 = storage w0.
Proof.
  intros Hg Hf. unfold getRemainingAttempts.
  rewrite (bind_returns _ _ _ _ _ Hg).
  destruct (shouldGrantFreshStart_frozen now w0 d Hf) as (w1 & H1 & Hf1 & Hs1).
  rewrite (bind_returns _ _ _ _ _ H1).
  destruct (cooldown_applies now d).
  - exists w1. auto.
  - unfold attempts_view. destruct (lockoutUntil d) as [t|].
    + unfold isLockoutExpired.
      destruct (Date_now_frozen now w1 Hf1) as (w2 & H2 & Hf2 & Hs2).
      rewrite !bind_bind, (bind_returns _ _ _ _ _ H2).
      exists w2. destruct (t <=? now); cbn;
        (split; [reflexivity|]); (split; [assumption | congruence]).
    + exists w1. split; [reflexivity|]. auto.
Qed.

(** Under a failing read [getData] synthesises the cautious state. *)
Lemma getData_read_fails now w :
  read_fails w -> frozen now w ->
  exists w0,
    getData w
    = (Returns {| consecutiveFailures := 1;
                  lockoutUntil := Some (now + calculateBackoffDuration 1);
                  lastAttemptTime := Some now |}, w0) /\
    frozen now w0 /\ storage w0 = storage w.
Proof.
  intros [Ht [e He]] Hf. unfold getData. rewrite Ht. cbn [negb].
  unfold try_catch. rewrite (bind_throws _ _ _ _ _ He).
  destruct (Date_now_frozen now w Hf) as (w1 & H1 & Hf1 & Hs1).
  cbv zeta. rewrite (bind_returns _ _ _ _ _ H1).
  destruct (Date_now_frozen now w1 Hf1) as (w2 & H2 & Hf2 & Hs2).
  rewrite (bind_returns _ _ _ _ _ H2).
  exists w2. split; [reflexivity|]. split; [assumption | congruence].
Qed.

Lemma recordFailure_rule_consistent now s :
  lockout_consistent (recordFailure_rule now s).
Proof.
  rewrite recordFailure_rule_fields. cbv zeta. unfold lockout_consistent.
  cbn [lockoutUntil consecutiveFailures].
  rewrite calculateBackoffDuration_positive.
  match goal with |- context [5 <=? ?n] => destruct (Z.leb_spec 5 n) end;
    [assumption | exact I].
Qed.

Lemma DEFAULT_DATA_consistent : lockout_consistent DEFAULT_DATA.
Proof. exact I. Qed.

(** C1.  For every stored state that is read successfully and persisted
    successfully (no record counting as the default state), with the clock
    standing at [now], [recordFailure] returns and writes back the state
    obtained by: resetting the counter to 0 and the lockout to null when the
    24h cooldown applies; then clearing a lockout that has run out, the
    counter being kept; then adding one to the counter and setting
    [lastAttemptTime] to [now]; then setting [lockoutUntil] to
    [now + calculateBackoffDuration counter] when that duration is positive
    and to null otherwise. *)
Theorem recordFailure_persists_rule now w o :
  readable w o -> writable w o -> frozen now w ->
  let s := read_state o in
  let s1 := step_cooldown now s in
  let s2 := step_expiry now s1 in
  let n := consecutiveFailures s2 + 1 in
  let d := calculateBackoffDuration n in
  exists w',
    recordFailure w = (Returns tt, w') /\
    stored w' = Some {| consecutiveFailures := n;
                        lockoutUntil := if 0 <? d then Some (now + d) else None;
                        lastAttemptTime := Some now |} /\
    consecutiveFailures s2
    = (if cooldown_applies now s then 0 else consecutiveFailures s) /\
    (cooldown_applies now s = true -> lockoutUntil s1 = None) /\
    (cooldown_applies now s = false -> s1 = s).
Proof.
  intros Hr Hw Hf s s1 s2 n d.
  destruct (recordFailure_runs now w o Hr Hw Hf) as (w' & Hrun & Hst & _).
  exists w'. split; [assumption|]. split; [exact Hst|].
  unfold s2, s1, step_expiry, step_cooldown.
  destruct (cooldown_applies now s); cbn.
  - split; [reflexivity|]. split; [reflexivity | discriminate].
  - split; [|split; [discriminate | reflexivity]].
    destruct (lockoutUntil s) as [t|]; [|reflexivity].
    destruct (t <=? now); reflexivity.
Qed.

(** C2.  For every non-negative integer [n], [calculateBackoffDuration n] is
    0 when [n < 5] and, when [n >= 5], the smaller of [2^(n-4)] minutes and
    24 hours, in milliseconds: 2, 4, 8, 16, 32 minutes for n = 5..9, and 24
    hours from n = 15 on. *)
Theorem calculateBackoffDuration_spec (n : Z) :
  0 <= n ->
  (n < 5 -> calculateBackoffDuration n = 0) /\
  (5 <= n ->
   calculateBackoffDuration n
   = Z.min (2 ^ (n - 4) * 60 * 1000) (24 * 60 * 60 * 1000)) /\
  (15 <= n -> calculateBackoffDuration n = 24 * 60 * 60 * 1000) /\
  map calculateBackoffDuration [5; 6; 7; 8; 9]
  = map (fun minutes => minutes * 60 * 1000) [2; 4; 8; 16; 32].
Proof.
  intros _. split; [apply calculateBackoffDuration_below|].
  split; [apply calculateBackoffDuration_above|].
  split; [|reflexivity].
  intros H. rewrite calculateBackoffDuration_above by lia.
  assert (2 ^ 11 <= 2 ^ (n - 4)) by (apply Z.pow_le_mono_r; lia).
  change (2 ^ 11) with 2048 in *. lia.
Qed.

Lemma readable_read_state w o s :
  readable w o -> contents o !! STORAGE_KEY = Some s ->
  getData w = (Returns s, w) /\ stored w = Some s.
Proof.
  intros Hr Hc. rewrite (getData_readable w o Hr). unfold read_state, stored.
  destruct Hr as [-> _]. rewrite Hc. auto.
Qed.

Lemma stored_same_storage w w' : storage w' = storage w -> stored w' = stored w.
Proof. unfold stored. intros ->. reflexivity. Qed.

Lemma cooldown_applies_stale now s t :
  lastAttemptTime s = Some t -> COOLDOWN_PERIOD_MS <= now - t ->
  cooldown_applies now s = true.
Proof. intros Hl Ht. unfold cooldown_applies. rewrite Hl. apply Z.leb_le, Ht. Qed.

Lemma recordFailure_rule_fresh now s :
  cooldown_applies now s = true ->
  recordFailure_rule now s
  = {| consecutiveFailures := 1; lockoutUntil := None;
       lastAttemptTime := Some now |}.
Proof.
  intros Hc. unfold recordFailure_rule, step_cooldown. rewrite Hc. reflexivity.
Qed.

(** C3.  For every stored state whose [lastAttemptTime] is non-null and at
    least 24 hours before [now], whatever its counter and lockout:
    [getStatus] reports unlocked, 0 ms remaining and 5 attempts, and
    persists the default state; [getRemainingAttempts] returns 5 and writes
    nothing; [recordFailure] persists a counter of 1 with no lockout; and
    all three answer exactly as they do after an explicit [reset].  A null
    [lastAttemptTime] never grants the fresh start, at whatever instant and
    whatever the counter and lockout: [getStatus] then writes nothing and
    reports 0 attempts under a lockout and [max 0 (5 - counter)] without
    one, [getRemainingAttempts] answers from the stored counter and
    lockout, and [recordFailure] persists the stored counter plus one. *)
Theorem cooldown_grants_fresh_start now w o s t :
  readable w o -> writable w o -> frozen now w ->
  contents o !! STORAGE_KEY = Some s ->
  lastAttemptTime s = Some t -> COOLDOWN_PERIOD_MS <= now - t ->
  (exists w1,
     getStatus w = (Returns {| isLocked := false; lockoutRemainingMs := 0;
                               remainingAttempts := 5 |}, w1) /\
     stored w1 = Some DEFAULT_DATA) /\
  (exists w2, getRemainingAttempts w = (Returns 5, w2) /\ stored w2 = Some s) /\
  (exists w3,
     recordFailure w = (Returns tt, w3) /\
     stored w3 = Some {| consecutiveFailures := 1; lockoutUntil := None;
                         lastAttemptTime := Some now |}) /\
  (exists w0,
     reset w = (Returns tt, w0) /\ stored w0 = Some DEFAULT_DATA /\
     fst (getStatus w0) = fst (getStatus w) /\
     fst (getRemainingAttempts w0) = fst (getRemainingAttempts w) /\
     stored (snd (recordFailure w0)) = stored (snd (recordFailure w))) /\
  (forall v : World, shouldGrantFreshStart None v = (Returns false, v)) /\
  (forall now' w' o' s',
     readable w' o' -> writable w' o' -> frozen now' w' ->
     contents o' !! STORAGE_KEY = Some s' -> lastAttemptTime s' = None ->
     (exists st w1,
        getStatus w' = (Returns st, w1) /\ stored w1 = Some s' /\
        remainingAttempts st
        = match lockoutUntil s' with
          | Some _ => 0
          | None => Z.max 0 (5 - consecutiveFailures s')
          end) /\
     (exists w2,
        getRemainingAttempts w'
        = (Returns (match lockoutUntil s' with
                    | Some l => if l <=? now'
                                then Z.max 0 (5 - consecutiveFailures s')
                                else 0
                    | None => Z.max 0 (5 - consecutiveFailures s')
                    end), w2) /\
        stored w2 = Some s') /\
     (exists w3 s3,
        recordFailure w' = (Returns tt, w3) /\ stored w3 = Some s3 /\
        consecutiveFailures s3 = consecutiveFailures s' + 1 /\
        lastAttemptTime s3 = Some now')).
Proof.
  intros Hr Hw Hf Hc Hl Ht.
  assert (Hnull : forall now' w' o' s',
     readable w' o' -> writable w' o' -> frozen now' w' ->
     contents o' !! STORAGE_KEY = Some s' -> lastAttemptTime s' = None ->
     (exists st w1,
        getStatus w' = (Returns st, w1) /\ stored w1 = Some s' /\
        remainingAttempts st
        = match lockoutUntil s' with
          | Some _ => 0
          | None => Z.max 0 (5 - consecutiveFailures s')
          end) /\
     (exists w2,
        getRemainingAttempts w'
        = (Returns (match lockoutUntil s' with
                    | Some l => if l <=? now'
                                then Z.max 0 (5 - consecutiveFailures s')
                                else 0
                    | None => Z.max 0 (5 - consecutiveFailures s')
                    end), w2) /\
        stored w2 = Some s') /\
     (exists w3 s3,
        recordFailure w' = (Returns tt, w3) /\ stored w3 = Some s3 /\
        consecutiveFailures s3 = consecutiveFailures s' + 1 /\
        lastAttemptTime s3 = Some now')).
  { clear. intros now w o s Hr Hw Hf Hc Hl.
    assert (Hcool : cooldown_applies now s = false)
      by (unfold cooldown_applies; rewrite Hl; reflexivity).
    destruct (readable_read_state w o s Hr Hc) as [Hg Hst].
    destruct (getStatus_after_getData now w w s Hg Hf Hcool)
      as (w1 & H1 & _ & Hs1).
    destruct (getRemainingAttempts_after_getData now w w s Hg Hf)
      as (w2 & H2 & _ & Hs2).
    rewrite Hcool in H2.
    destruct (recordFailure_runs now w o Hr Hw Hf) as (w3 & H3 & Hst3 & _).
    assert (Es : read_state o = s) by (unfold read_state; rewrite Hc; reflexivity).
    rewrite Es in Hst3.
    split; [|split].
    - exists (status_view now s), w1. split; [exact H1|].
      split; [rewrite (stored_same_storage w w1 Hs1); exact Hst|].
      unfold status_view, expired_at, MAX_ATTEMPTS.
      destruct (lockoutUntil s) as [l|]; [destruct (l <=? now)|]; reflexivity.
    - exists w2. split; [exact H2|].
      rewrite (stored_same_storage w w2 Hs2). exact Hst.
    - exists w3, (recordFailure_rule now s). split; [exact H3|].
      split; [exact Hst3|]. split; [|reflexivity].
      unfold recordFailure_rule, step_cooldown. rewrite Hcool.
      unfold step_expiry.
      destruct (lockoutUntil s) as [l|]; [destruct (l <=? now)|]; reflexivity. }
  pose proof (cooldown_applies_stale now s t Hl Ht) as Hcool.
  destruct (readable_read_state w o s Hr Hc) as [Hg Hst].
  (* getStatus *)
  destruct (getStatus_after_getData_fresh now w w s Hg Hf Hcool)
    as (w1 & H1 & Hf1 & Hs1).
  assert (Hw1 : writable w1 o).
  { destruct Hw as [Hs Ha]. split; [congruence | exact Ha]. }
  destruct (storage_add_writable w1 o STORAGE_KEY DEFAULT_DATA Hw1)
    as (w1' & Hadd & Hs1' & _ & _).
  assert (Hstatus : getStatus w
                    = (Returns {| isLocked := false; lockoutRemainingMs := 0;
                                  remainingAttempts := 5 |}, w1')).
  { rewrite H1. unfold reset. rewrite (bind_returns _ _ _ _ _ Hadd). reflexivity. }
  (* getRemainingAttempts *)
  destruct (getRemainingAttempts_after_getData now w w s Hg Hf)
    as (w2 & H2 & Hf2 & Hs2).
  rewrite Hcool in H2.
  (* recordFailure *)
  destruct (recordFailure_runs now w o Hr Hw Hf) as (w3 & H3 & Hst3 & _).
  assert (Es : read_state o = s) by (unfold read_state; rewrite Hc; reflexivity).
  rewrite Es, (recordFailure_rule_fresh now s Hcool) in Hst3.
  (* the same limiter after an explicit reset *)
  destruct (storage_add_writable w o STORAGE_KEY DEFAULT_DATA Hw)
    as (w0 & Hreset & Hs0 & Hc0 & Hr0).
  set (o0 := {| get_method := get_method o; add_method := add_method o;
                contents := <[STORAGE_KEY := DEFAULT_DATA]> (contents o) |}) in *.
  assert (Hr0' : readable w0 o0) by (split; [exact Hs0 | apply Hr]).
  assert (Hw0' : writable w0 o0) by (split; [exact Hs0 | apply Hw]).
  assert (Hf0 : frozen now w0).
  { intros i Hi. rewrite Hc0. apply Hf. lia. }
  assert (Hc0' : contents o0 !! STORAGE_KEY = Some DEFAULT_DATA)
    by apply lookup_insert_eq.
  destruct (readable_read_state w0 o0 DEFAULT_DATA Hr0' Hc0') as [Hg0 Hst0].
  destruct (getStatus_after_getData now w0 w0 DEFAULT_DATA Hg0 Hf0 eq_refl)
    as (w4 & H4 & _ & _).
  destruct (getRemainingAttempts_after_getData now w0 w0 DEFAULT_DATA Hg0 Hf0)
    as (w5 & H5 & _ & _).
  destruct (recordFailure_runs now w0 o0 Hr0' Hw0' Hf0) as (w6 & H6 & Hst6 & _).
  assert (Es0 : read_state o0 = DEFAULT_DATA)
    by (unfold read_state; rewrite Hc0'; reflexivity).
  rewrite Es0 in Hst6.
  split; [|split; [|split; [|split; [|split; [intros v; reflexivity | exact Hnull]]]]].
  - exists w1'. split; [exact Hstatus|].
    unfold stored. rewrite Hs1'. cbn. apply lookup_insert_eq.
  - exists w2. split; [exact H2|].
    rewrite (stored_same_storage w w2 Hs2). exact Hst.
  - exists w3. split; [exact H3 | exact Hst3].
  - exists w0. split; [exact Hreset|]. split; [exact Hst0|].
    rewrite Hstatus, H4, H2, H5, H3, H6. cbn [fst snd].
    rewrite Hst3, Hst6. repeat split; reflexivity.
Qed.

(** C3, exercised: 24h and one second after the last attempt, in the middle
    of a lockout; and three failures on record with no attempt time, which
    no lapse of time turns into a fresh start. *)
Lemma cooldown_grants_fresh_start_witness :
  let s := {| consecutiveFailures := 7; lockoutUntil := Some 90000000;
              lastAttemptTime := Some 1000 |} in
  let o := memory_storage (Some Resolves) (Some Resolves) (Some s) in
  let w := world_at 86402000 (JsObject o) in
  let s' := {| consecutiveFailures := 3; lockoutUntil := None;
               lastAttemptTime := None |} in
  let o' := memory_storage (Some Resolves) (Some Resolves) (Some s') in
  let w' := world_at 2000000 (JsObject o') in
  (fst (getStatus w)
   = Returns {| isLocked := false; lockoutRemainingMs := 0; remainingAttempts := 5 |} /\
   fst (getRemainingAttempts w) = Returns 5 /\
   stored (snd (recordFailure w))
   = Some {| consecutiveFailures := 1; lockoutUntil := None;
             lastAttemptTime := Some 86402000 |}) /\
  (exists st, fst (getStatus w') = Returns st /\ remainingAttempts st = 2) /\
  stored (snd (getStatus w')) = Some s' /\
  fst (getRemainingAttempts w') = Returns 2 /\
  (exists s3, stored (snd (recordFailure w')) = Some s3 /\
              consecutiveFailures s3 = 4).
Proof.
  intros s o w s' o' w'.
  assert (Hr : readable w o) by (split; reflexivity).
  assert (Hw : writable w o) by (split; reflexivity).
  assert (Hf : frozen 86402000 w) by (intros i _; reflexivity).
  assert (Hc : contents o !! STORAGE_KEY = Some s) by reflexivity.
  assert (Hl : lastAttemptTime s = Some 1000) by reflexivity.
  assert (Ht : COOLDOWN_PERIOD_MS <= 86402000 - 1000)
    by (unfold COOLDOWN_PERIOD_MS, MAX_BACKOFF_MINUTES; lia).
  assert (Hr' : readable w' o') by (split; reflexivity).
  assert (Hw' : writable w' o') by (split; reflexivity).
  assert (Hf' : frozen 2000000 w') by (intros i _; reflexivity).
  assert (Hc' : contents o' !! STORAGE_KEY = Some s') by reflexivity.
  assert (Hl' : lastAttemptTime s' = None) by reflexivity.
  destruct (cooldown_grants_fresh_start 86402000 w o s 1000 Hr Hw Hf Hc Hl Ht)
    as ((w1 & H1 & _) & (w2 & H2 & _) & (w3 & H3 & Hst3) & _ & _ & Hnull).
  destruct (Hnull 2000000 w' o' s' Hr' Hw' Hf' Hc' Hl')
    as ((st & v1 & G1 & Gs1 & Gr) & (v2 & G2 & _) & (v3 & s3 & G3 & Gs3 & Gc & _)).
  split; [rewrite H1, H2, H3; cbn [fst snd]; auto|].
  rewrite G1, G2, G3. cbn [fst snd].
  split; [exists st; split; [reflexivity | exact Gr]|].
  split; [exact Gs1|]. split; [reflexivity|].
  exists s3. split; [exact Gs3 | exact Gc].
Defined.

(** C4 (amended).  For every stored state without a pending cooldown, at an
    instant [now] of the epoch clock: with a lockout that has run out
    [getStatus] reports unlocked with 0 ms and 0 attempts; with a lockout
    still running it reports locked, 0 attempts and
    [max 0 (lockoutUntil - now)] ms; with no lockout it reports unlocked and
    [max 0 (5 - consecutiveFailures)] attempts.  Neither query writes.
    [getRemainingAttempts] returns 0 under a running lockout and
    [max 0 (5 - consecutiveFailures)] otherwise: the same attempts figure
    when the lockout is null or still running, and after a lockout that has
    run out the same figure exactly for the states in which a lockout is
    stored with a counter of at least 5, as in every state the limiter
    writes. *)
Theorem status_without_cooldown now w o s :
  readable w o -> contents o !! STORAGE_KEY = Some s ->
  frozen now w -> 0 <= now ->
  cooldown_applies now s = false ->
  exists st w1 n w2,
    getStatus w = (Returns st, w1) /\ stored w1 = Some s /\
    getRemainingAttempts w = (Returns n, w2) /\ stored w2 = Some s /\
    match lockoutUntil s with
    | Some t =>
        if t <=? now
        then st = {| isLocked := false; lockoutRemainingMs := 0;
                     remainingAttempts := 0 |}
        else st = {| isLocked := true; lockoutRemainingMs := Z.max 0 (t - now);
                     remainingAttempts := 0 |}
    | None =>
        st = {| isLocked := false; lockoutRemainingMs := 0;
                remainingAttempts := Z.max 0 (5 - consecutiveFailures s) |}
    end /\
    n = match lockoutUntil s with
        | Some t => if t <=? now
                    then Z.max 0 (5 - consecutiveFailures s)
                    else 0
        | None => Z.max 0 (5 - consecutiveFailures s)
        end /\
    ((forall t, lockoutUntil s = Some t -> now < t) -> n = remainingAttempts st) /\
    (lockout_consistent s -> n = remainingAttempts st) /\
    (forall t, lockoutUntil s = Some t -> t <= now ->
               (n = remainingAttempts st <-> 5 <= consecutiveFailures s)).
Proof.
  intros Hr Hc Hf Hnow Hcool.
  destruct (readable_read_state w o s Hr Hc) as [Hg Hst].
  destruct (getStatus_after_getData now w w s Hg Hf Hcool) as (w1 & H1 & _ & Hs1).
  destruct (getRemainingAttempts_after_getData now w w s Hg Hf)
    as (w2 & H2 & _ & Hs2).
  rewrite Hcool in H2.
  exists (status_view now s), w1, (attempts_view now s), w2.
  split; [exact H1|]. split; [rewrite (stored_same_storage w w1 Hs1); exact Hst|].
  split; [exact H2|]. split; [rewrite (stored_same_storage w w2 Hs2); exact Hst|].
  unfold status_view, attempts_view, expired_at, lockout_consistent, MAX_ATTEMPTS.
  destruct (lockoutUntil s) as [t|].
  - destruct (Z.leb_spec t now) as [Hle|Hlt].
    + split; [reflexivity|]. split; [reflexivity|]. split; [|split].
      * intros Hrun. specialize (Hrun t eq_refl). lia.
      * intros Hinv. cbn. lia.
      * intros t' _ _. cbn. lia.
    + destruct (Z.eqb_spec t 0) as [->|Hne]; [lia|].
      split; [reflexivity|]. split; [reflexivity|]. split; [reflexivity|].
      split; [reflexivity|].
      intros t' [= <-] Hle. lia.
  - split; [reflexivity|]. split; [reflexivity|]. split; [reflexivity|].
    split; [reflexivity|]. intros t' [=].
Qed.

(** C4 (amended), exercised: a lockout with one minute left to run. *)
Lemma status_without_cooldown_witness :
  let s := {| consecutiveFailures := 5; lockoutUntil := Some 1060000;
              lastAttemptTime := Some 1000000 |} in
  let w := world_at 1000000
             (JsObject (memory_storage (Some Resolves) (Some Resolves) (Some s))) in
  fst (getStatus w)
  = Returns {| isLocked := true; lockoutRemainingMs := 60000; remainingAttempts := 0 |} /\
  fst (getRemainingAttempts w) = Returns 0.
Proof.
  intros s w.
  set (o := memory_storage (Some Resolves) (Some Resolves) (Some s)).
  assert (Hr : readable w o) by (split; reflexivity).
  assert (Hc : contents o !! STORAGE_KEY = Some s) by reflexivity.
  assert (Hf : frozen 1000000 w) by (intros i _; reflexivity).
  assert (Hnow : 0 <= 1000000) by lia.
  assert (Hcool : cooldown_applies 1000000 s = false) by reflexivity.
  destruct (status_without_cooldown 1000000 w o s Hr Hc Hf Hnow Hcool)
    as (st & w1 & n & w2 & H1 & _ & H2 & _ & Hcase & _ & _ & Hsame & _).
  rewrite H1, H2. cbn [fst]. cbn in Hcase.
  assert (Hinv : lockout_consistent s) by (cbn; unfold MAX_ATTEMPTS; lia).
  rewrite (Hsame Hinv), Hcase. split; reflexivity.
Defined.

(** C4, as stated, fails: two failures on record beside a lockout that ran
    out a hundred milliseconds ago, no cooldown pending.  [getStatus]
    reports 0 attempts, [getRemainingAttempts] reports 3. *)
Lemma expired_lockout_queries_disagree :
  let s := {| consecutiveFailures := 2; lockoutUntil := Some 900;
              lastAttemptTime := Some 800 |} in
  let w := world_at 1000
             (JsObject (memory_storage (Some Resolves) (Some Resolves) (Some s))) in
  cooldown_applies 1000 s = false /\
  fst (getStatus w)
  = Returns {| isLocked := false; lockoutRemainingMs := 0; remainingAttempts := 0 |} /\
  fst (getRemainingAttempts w) = Returns 3 /\
  ~ (exists st n, fst (getStatus w) = Returns st /\
                  fst (getRemainingAttempts w) = Returns n /\
                  n = remainingAttempts st).
Proof.
  intros s w.
  assert (Hst : fst (getStatus w)
                = Returns {| isLocked := false; lockoutRemainingMs := 0;
                             remainingAttempts := 0 |}) by reflexivity.
  assert (Hn : fst (getRemainingAttempts w) = Returns 3) by reflexivity.
  split; [reflexivity|]. split; [exact Hst|]. split; [exact Hn|].
  intros (st & n & H1 & H2 & E). rewrite Hst in H1. rewrite Hn in H2.
  injection H1 as <-. injection H2 as <-. discriminate E.
Qed.

(** *** Storage faults in [recordFailure], for any clock *)

Lemma Date_now_returns w :
  exists t w', Date_now w = (Returns t, w') /\ storage w' = storage w.
Proof. eexists _, _. split; reflexivity. Qed.

Lemma shouldGrantFreshStart_returns l w :
  exists b w', shouldGrantFreshStart l w = (Returns b, w') /\ storage w' = storage w.
Proof. destruct l; eexists _, _; split; reflexivity. Qed.

Lemma expiry_guard_returns (l : option Z) w :
  exists b w', (match l with
                | None => ret false
                | Some _ => isLockoutExpired l
                end) w = (Returns b, w') /\ storage w' = storage w.
Proof. destruct l; eexists _, _; split; reflexivity. Qed.

Lemma getData_bound_returns w :
  truthy (storage w) = true ->
  exists d w0, getData w = (Returns d, w0) /\ storage w0 = storage w.
Proof.
  intros Ht. unfold getData. rewrite Ht. cbn [negb].
  unfold try_catch, bind, storage_get.
  destruct (storage w) as [| |b|n| |str|o] eqn:Es;
    try (eexists _, _; split; [reflexivity | exact Es]).
  destruct (get_method o) as [[|]|];
    eexists _, _; (split; [reflexivity | exact Es]).
Qed.

(** With a storage bound, [recordFailure] always gets as far as the guarded
    write, whatever the read did. *)
Lemma recordFailure_reaches_write w :
  truthy (storage w) = true ->
  exists v w4,
    recordFailure w
    = try_catch (storage_add STORAGE_KEY v)
        (throw (JsError "Failed to record attempt - denying access")) w4 /\
    storage w4 = storage w.
Proof.
  intros Ht. destruct (getData_bound_returns w Ht) as (d & w0 & Hg & Hs0).
  unfold recordFailure.
  assert (Hd : try_catch getData
                 (throw (JsError "Rate limiter unavailable - denying attempt")) w
               = (Returns d, w0)).
  { unfold try_catch. rewrite Hg. reflexivity. }
  rewrite (bind_returns _ _ _ _ _ Hd).
  destruct (shouldGrantFreshStart_returns (lastAttemptTime d) w0)
    as (b1 & w1 & H1 & Hs1).
  rewrite (bind_returns _ _ _ _ _ H1).
  match goal with
  | |- context [bind (match lockoutUntil ?x with _ => _ end)] => set (s1 := x)
  end.
  destruct (expiry_guard_returns (lockoutUntil s1) w1) as (b2 & w2 & H2 & Hs2).
  rewrite (bind_returns _ _ _ _ _ H2).
  destruct (Date_now_returns w2) as (t & w3 & H3 & Hs3).
  rewrite (bind_returns _ _ _ _ _ H3).
  match goal with
  | |- context [bind (if ?c then ?a else ?b)] =>
      assert (Hu : exists u w4, (if c then a else b) w3 = (Returns u, w4) /\
                                storage w4 = storage w3)
        by (destruct c; eexists _, _; split; reflexivity)
  end.
  destruct Hu as (u & w4 & H4 & Hs4).
  rewrite (bind_returns _ _ _ _ _ H4).
  eexists _, w4. split; [reflexivity | congruence].
Qed.

Lemma storage_add_same_storage w w' key v :
  storage w' = storage w ->
  (forall e, storage_add key v w = (Throws e, w) ->
             storage_add key v w' = (Throws e, w')) /\
  (fst (storage_add key v w) = Returns tt ->
   fst (storage_add key v w') = Returns tt).
Proof.
  intros Hs. unfold storage_add. rewrite Hs.
  destruct (storage w) as [| |b|n| |str|o];
    try (split; intros; cbn in *; congruence).
  destruct (add_method o) as [[|]|]; split; intros; cbn in *; congruence.
Qed.

(** A failing write is always answered by the denial of the write path. *)
Lemma recordFailure_write_fault_denies w :
  write_fails w ->
  exists w',
    recordFailure w
    = (Throws (JsError "Failed to record attempt - denying access"), w').
Proof.
  intros [Ht Hwf].
  destruct (recordFailure_reaches_write w Ht) as (v & w4 & Hrun & Hs4).
  destruct (Hwf v) as [e He].
  destruct (storage_add_same_storage w w4 STORAGE_KEY v Hs4) as [Hthrow _].
  exists w4. rewrite Hrun. unfold try_catch. rewrite (Hthrow e He). reflexivity.
Qed.

(** The denial of the read path is only reached when no storage is bound. *)
Lemma recordFailure_unbound_denies w :
  truthy (storage w) = false ->
  recordFailure w
  = (Throws (JsError "Rate limiter unavailable - denying attempt"), w).
Proof.
  intros Ht. unfold recordFailure, bind, try_catch, getData. rewrite Ht.
  reflexivity.
Qed.

(** With a storage bound, whether [recordFailure] returns is decided by the
    write alone: a failing read never makes it throw. *)
Lemma recordFailure_returns_when_write_resolves w o :
  writable w o -> exists w', recordFailure w = (Returns tt, w').
Proof.
  intros [Hs Ha].
  assert (Ht : truthy (storage w) = true) by (rewrite Hs; reflexivity).
  destruct (recordFailure_reaches_write w Ht) as (v & w4 & Hrun & Hs4).
  assert (Hw4 : writable w4 o) by (split; [congruence | exact Ha]).
  destruct (guarded_write_writable w4 o v
              "Failed to record attempt - denying access" Hw4) as (w5 & H5 & _).
  exists w5. rewrite Hrun. exact H5.
Qed.

(** Under a failing read and a resolving write, with the clock standing at
    [now], [recordFailure] returns and persists what the rule makes of the
    state [getData] synthesised. *)
Lemma recordFailure_read_fault_runs now w o :
  read_fails w -> writable w o -> frozen now w ->
  exists w',
    recordFailure w = (Returns tt, w') /\
    stored w' = Some {| consecutiveFailures := 2; lockoutUntil := None;
                        lastAttemptTime := Some now |}.
Proof.
  intros Hrf Hw Hf.
  destruct (getData_read_fails now w Hrf Hf) as (w0 & Hg & Hf0 & Hs0).
  destruct (recordFailure_after_getData now w w0 _ Hg Hf0)
    as (w4 & Hrun & Hf4 & Hs4).
  assert (Hw4 : writable w4 o).
  { destruct Hw as [Hs Ha]. split; [congruence | exact Ha]. }
  destruct (guarded_write_writable w4 o
              (recordFailure_rule now
                 {| consecutiveFailures := 1;
                    lockoutUntil := Some (now + calculateBackoffDuration 1);
                    lastAttemptTime := Some now |})
              "Failed to record attempt - denying access" Hw4)
    as (w5 & H5 & Hst & _).
  exists w5. rewrite Hrun, H5. split; [reflexivity|]. rewrite Hst. f_equal.
  unfold recordFailure_rule, step_cooldown, cooldown_applies.
  cbn [lastAttemptTime].
  replace (COOLDOWN_PERIOD_MS <=? now - now) with false
    by (symmetry; apply Z.leb_gt; unfold COOLDOWN_PERIOD_MS, MAX_BACKOFF_MINUTES; lia).
  unfold step_expiry. cbn [lockoutUntil].
  replace (now + calculateBackoffDuration 1 <=? now) with true
    by (symmetry; apply Z.leb_le; change (calculateBackoffDuration 1) with 0; lia).
  reflexivity.
Qed.

(** The guarded write either returns or throws the denial of the write
    path, without having stored anything. *)
Lemma guarded_write_outcome w v (msg : string) :
  (exists w', try_catch (storage_add STORAGE_KEY v) (throw (JsError msg)) w
              = (Returns tt, w')) \/
  try_catch (storage_add STORAGE_KEY v) (throw (JsError msg)) w
  = (Throws (JsError msg), w).
Proof.
  unfold try_catch, throw, storage_add.
  destruct (storage w) as [| |b|n| |str|o]; try (right; reflexivity).
  destruct (add_method o) as [[|]|]; [left; eexists; reflexivity | |];
    right; reflexivity.
Qed.

(** C5 (amended).  For any clock and whatever the read does: when the bound
    storage's write fails, [recordFailure] throws "Failed to record attempt
    - denying access" and nothing has been stored.  A failing read never
    yields the denial of the read path: [getData] absorbs it, and with a
    resolving write [recordFailure] then returns.  "Rate limiter unavailable
    - denying attempt" is thrown exactly when no storage is bound. *)
Theorem recordFailure_storage_faults w :
  (write_fails w ->
   exists w',
     recordFailure w
     = (Throws (JsError "Failed to record attempt - denying access"), w') /\
     stored w' = stored w) /\
  (read_fails w ->
   fst (recordFailure w)
   <> Throws (JsError "Rate limiter unavailable - denying attempt") /\
   forall o, writable w o -> exists w', recordFailure w = (Returns tt, w')) /\
  (fst (recordFailure w)
   = Throws (JsError "Rate limiter unavailable - denying attempt")
   <-> truthy (storage w) = false).
Proof.
  assert (Hbound : truthy (storage w) = true ->
            fst (recordFailure w)
            <> Throws (JsError "Rate limiter unavailable - denying attempt")).
  { intros Ht. destruct (recordFailure_reaches_write w Ht) as (v & w4 & Hrun & _).
    rewrite Hrun.
    destruct (guarded_write_outcome w4 v
                "Failed to record attempt - denying access") as [[w' H]|H];
      rewrite H; discriminate. }
  split; [|split].
  - intros [Ht Hwf].
    destruct (recordFailure_reaches_write w Ht) as (v & w4 & Hrun & Hs4).
    destruct (Hwf v) as [e He].
    destruct (storage_add_same_storage w w4 STORAGE_KEY v Hs4) as [Hthrow _].
    exists w4. rewrite Hrun. unfold try_catch. rewrite (Hthrow e He).
    split; [reflexivity | exact (stored_same_storage w w4 Hs4)].
  - intros [Ht _]. split; [exact (Hbound Ht)|].
    intros o Hw. exact (recordFailure_returns_when_write_resolves w o Hw).
  - split.
    + intros H. destruct (truthy (storage w)) eqn:Ht; [|reflexivity].
      exfalso. exact (Hbound eq_refl H).
    + intros Ht. rewrite (recordFailure_unbound_denies w Ht). reflexivity.
Qed.

(** C5 (amended), exercised: behind a storage whose [get] and [add] both
    reject the denial is the one of the write path; behind one whose [get]
    rejects while its [add] resolves the call returns. *)
Lemma recordFailure_storage_faults_witness :
  let s := {| consecutiveFailures := 7; lockoutUntil := Some 1480000;
              lastAttemptTime := Some 1000000 |} in
  let w1 := world_at 1200000
              (JsObject (memory_storage (Some Rejects) (Some Rejects) (Some s))) in
  let o2 := memory_storage (Some Rejects) (Some Resolves) (Some s) in
  let w2 := world_at 1200000 (JsObject o2) in
  (exists w',
     recordFailure w1
     = (Throws (JsError "Failed to record attempt - denying access"), w') /\
     stored w' = Some s) /\
  (exists w', recordFailure w2 = (Returns tt, w')).
Proof.
  intros s w1 o2 w2.
  assert (Hwf : write_fails w1).
  { split; [reflexivity|]. intros v. exists StorageFault. reflexivity. }
  assert (Hrf : read_fails w2).
  { split; [reflexivity|]. exists StorageFault. reflexivity. }
  assert (Hw : writable w2 o2) by (split; reflexivity).
  destruct (recordFailure_storage_faults w1) as (Hwrite & _ & _).
  destruct (recordFailure_storage_faults w2) as (_ & Hread & _).
  split.
  - destruct (Hwrite Hwf) as (w' & Hrun & Hst). exists w'.
    split; [exact Hrun | exact Hst].
  - destruct (Hread Hrf) as [_ Hret]. exact (Hret o2 Hw).
Defined.

(** C5, as stated, fails: seven recorded failures and an active lockout,
    behind a storage whose [get] rejects while its [add] resolves.
    [recordFailure] returns normally instead of denying; and with [add]
    rejecting too, the denial is the one of the write path, not "Rate
    limiter unavailable". *)
Lemma failing_read_is_not_denied :
  let s := {| consecutiveFailures := 7; lockoutUntil := Some 1480000;
              lastAttemptTime := Some 1000000 |} in
  let w := world_at 1200000
             (JsObject (memory_storage (Some Rejects) (Some Resolves) (Some s))) in
  let w2 := world_at 1200000
              (JsObject (memory_storage (Some Rejects) (Some Rejects) (Some s))) in
  read_fails w /\
  fst (recordFailure w) = Returns tt /\
  ~ (exists e, fst (recordFailure w) = Throws e) /\
  read_fails w2 /\
  fst (recordFailure w2)
  = Throws (JsError "Failed to record attempt - denying access") /\
  fst (recordFailure w2)
  <> Throws (JsError "Rate limiter unavailable - denying attempt").
Proof.
  intros s w w2.
  assert (H1 : fst (recordFailure w) = Returns tt) by reflexivity.
  assert (H2 : fst (recordFailure w2)
               = Throws (JsError "Failed to record attempt - denying access"))
    by reflexivity.
  split; [split; [reflexivity | exists StorageFault; reflexivity]|].
  split; [exact H1|]. split; [intros [e He]; rewrite H1 in He; discriminate|].
  split; [split; [reflexivity | exists StorageFault; reflexivity]|].
  split; [exact H2|]. rewrite H2. discriminate.
Qed.

(** C6.  With the clock standing at [now]: whenever the bound storage's
    read fails, [getData] does not throw but returns the state with counter
    1, [lockoutUntil = now + calculateBackoffDuration 1], which is [now],
    and [lastAttemptTime = now], and [getStatus] answers exactly unlocked,
    0 ms, 0 attempts, without writing; when the read succeeds and finds no
    record, [getData] returns the default state (0, null, null). *)
Theorem getData_fail_safe now w :
  frozen now w ->
  (read_fails w ->
   (exists w0,
      getData w = (Returns {| consecutiveFailures := 1;
                              lockoutUntil := Some (now + calculateBackoffDuration 1);
                              lastAttemptTime := Some now |}, w0)) /\
   now + calculateBackoffDuration 1 = now /\
   (exists w1,
      getStatus w = (Returns {| isLocked := false; lockoutRemainingMs := 0;
                                remainingAttempts := 0 |}, w1) /\
      storage w1 = storage w)) /\
  (forall o, readable w o -> contents o !! STORAGE_KEY = None ->
             getData w = (Returns {| consecutiveFailures := 0; lockoutUntil := None;
                                     lastAttemptTime := None |}, w)).
Proof.
  intros Hf. split.
  - intros Hrf.
    destruct (getData_read_fails now w Hrf Hf) as (w0 & Hg & Hf0 & Hs0).
    split; [exists w0; exact Hg|].
    split; [change (calculateBackoffDuration 1) with 0; lia|].
    assert (Hcool : cooldown_applies now
                      {| consecutiveFailures := 1;
                         lockoutUntil := Some (now + calculateBackoffDuration 1);
                         lastAttemptTime := Some now |} = false).
    { unfold cooldown_applies. cbn [lastAttemptTime]. apply Z.leb_gt.
      unfold COOLDOWN_PERIOD_MS, MAX_BACKOFF_MINUTES. lia. }
    destruct (getStatus_after_getData now w w0 _ Hg Hf0 Hcool)
      as (w1 & H1 & _ & Hs1).
    exists w1. split; [|congruence]. rewrite H1. f_equal.
    unfold status_view, expired_at. cbn [lockoutUntil].
    replace (now + calculateBackoffDuration 1 <=? now) with true
      by (symmetry; apply Z.leb_le; change (calculateBackoffDuration 1) with 0; lia).
    reflexivity.
  - intros o Hr Hc. rewrite (getData_readable w o Hr).
    unfold read_state. rewrite Hc. reflexivity.
Qed.

(** C6, exercised: a storage whose [get] rejects. *)
Lemma getData_fail_safe_witness :
  let w := world_at 1000000
             (JsObject (memory_storage (Some Rejects) (Some Resolves) None)) in
  fst (getData w)
  = Returns {| consecutiveFailures := 1; lockoutUntil := Some 1000000;
               lastAttemptTime := Some 1000000 |} /\
  fst (getStatus w)
  = Returns {| isLocked := false; lockoutRemainingMs := 0; remainingAttempts := 0 |}.
Proof.
  intros w.
  assert (Hf : frozen 1000000 w) by (intros i _; reflexivity).
  assert (Hrf : read_fails w).
  { split; [reflexivity|]. exists StorageFault. reflexivity. }
  destruct (getData_fail_safe 1000000 w Hf) as [Hfail _].
  destruct (Hfail Hrf) as ((w0 & Hg) & _ & (w1 & Hst & _)).
  rewrite Hg, Hst. split; reflexivity.
Defined.

(** C10.  [setStorage s] throws if and only if [s] is falsy, and then with
    the message naming get and add; every truthy [s] is bound as the
    storage unchanged, and an object with neither a [get] nor an [add]
    method is truthy, hence accepted. *)
Theorem setStorage_throws_iff_falsy (s : JsValue) (w : World) :
  ((exists e, fst (setStorage s w) = Throws e) <-> truthy s = false) /\
  (truthy s = false ->
   setStorage s w = (Throws (JsError "Storage must have get and add methods"), w)) /\
  (truthy s = true ->
   setStorage s w
   = (Returns tt, {| storage := s; clock := clock w; reads := reads w |})) /\
  (forall c, truthy (JsObject {| get_method := None; add_method := None;
                                 contents := c |}) = true).
Proof.
  unfold setStorage. destruct (truthy s); cbn.
  - repeat split; try discriminate; try reflexivity.
    intros [e He]. discriminate.
  - repeat split; try discriminate; try reflexivity.
    intros _. eexists. reflexivity.
Qed.

(** C10, exercised: an object with neither [get] nor [add] is bound. *)
Lemma setStorage_throws_iff_falsy_witness :
  let bare := JsObject {| get_method := None; add_method := None; contents := ∅ |} in
  let w := world_at 0 JsNull in
  setStorage bare w = (Returns tt, world_at 0 bare) /\
  setStorage JsNull w
  = (Throws (JsError "Storage must have get and add methods"), w).
Proof.
  intros bare w.
  destruct (setStorage_throws_iff_falsy bare w) as (_ & _ & Hacc & Hbare).
  destruct (setStorage_throws_iff_falsy JsNull w) as (_ & Hrej & _).
  split; [exact (Hacc (Hbare ∅)) | exact (Hrej eq_refl)].
Defined.

(** C2, exercised: the tenth consecutive failure locks for 64 minutes. *)
Lemma calculateBackoffDuration_spec_witness :
  calculateBackoffDuration 10 = 64 * 60 * 1000 /\
  calculateBackoffDuration 3 = 0 /\
  calculateBackoffDuration 100 = 24 * 60 * 60 * 1000.
Proof.
  assert (H10 : 0 <= 10) by lia.
  assert (H3 : 0 <= 3) by lia.
  assert (H100 : 0 <= 100) by lia.
  destruct (calculateBackoffDuration_spec 10 H10) as (_ & Habove & _).
  destruct (calculateBackoffDuration_spec 3 H3) as (Hbelow & _).
  destruct (calculateBackoffDuration_spec 100 H100) as (_ & _ & Hcap & _).
  split; [rewrite Habove by lia; reflexivity|].
  split; [apply Hbelow; lia | apply Hcap; lia].
Defined.

(** C1, exercised: a fifth-failure state with a run-out lockout. *)
Lemma recordFailure_persists_rule_witness :
  let o := memory_storage (Some Resolves) (Some Resolves)
             (Some {| consecutiveFailures := 5; lockoutUntil := Some 1950000;
                      lastAttemptTime := Some 1940000 |}) in
  let w := world_at 2000000 (JsObject o) in
  exists w',
    recordFailure w = (Returns tt, w') /\
    stored w' = Some {| consecutiveFailures := 6;
                        lockoutUntil := Some (2000000 + 4 * 60 * 1000);
                        lastAttemptTime := Some 2000000 |}.
Proof.
  intros o w.
  assert (Hr : readable w o) by (split; reflexivity).
  assert (Hw : writable w o) by (split; reflexivity).
  assert (Hf : frozen 2000000 w) by (intros i _; reflexivity).
  destruct (recordFailure_persists_rule 2000000 w o Hr Hw Hf)
    as (w' & Hrun & Hst & _).
  exists w'. split; [exact Hrun | exact Hst].
Defined.

End RateLimiterProperties.

(** * Properties of the master-password manager *)

Section ManagerProperties.
Import MasterPasswordManager.
Context {C : Crypto}.

Ltac run_manager :=
  unfold createMasterPassword, initWithPassword, updateMasterPassword,
    initWithCredentials, persistProjections, hashPassword,
    encryptVaultKeyWithHashedPassword, encryptVaultWithKey,
    getIsEncryptionInitialized, getIsVaultsInitialized, encryptionInit,
    masterVaultInit, closeVaultsInstance, vaultsGet, vaultsAdd, encryptionGet,
    encryptionAdd, draw, field, bind, ret, throw;
  cbn [fst snd encryptionInitialized vaultsInitialized vaults encryption
       entropy limiter failuresRecorded hashedPassword salt ciphertext nonce].


(** ** The two projections *)

Lemma masterPasswordRecord_lookup c n sa name (f : Field) :
  masterPasswordRecord c n sa !! name = Some f ->
  (name = "ciphertext" /\ f = FCiphertext c) \/
  (name = "nonce" /\ f = FNonce n) \/
  (name = "salt" /\ f = FSalt sa).
Proof.
  unfold masterPasswordRecord. intros H.
  apply lookup_insert_Some in H as [[<- <-]|[_ H]]; [auto|].
  apply lookup_insert_Some in H as [[<- <-]|[_ H]]; [auto|].
  apply lookup_insert_Some in H as [[<- <-]|[_ H]]; [auto|].
  rewrite lookup_empty in H. discriminate.
Qed.

Lemma triple_masterPasswordRecord c n sa :
  triple (masterPasswordRecord c n sa)
  = (Some (FCiphertext c), Some (FNonce n), Some (FSalt sa)).
Proof. reflexivity. Qed.

Lemma triple_masterEncryptionRecord c n sa h :
  triple (masterEncryptionRecord c n sa h)
  = (Some (FCiphertext c), Some (FNonce n), Some (FSalt sa)).
Proof. reflexivity. Qed.

Lemma written_together_agree s :
  written_together s -> projections_agree s /\ hash_confined s.
Proof.
  intros (m & Hv & He). unfold projections_agree, hash_confined.
  rewrite Hv, He. split.
  - rewrite triple_masterEncryptionRecord, triple_masterPasswordRecord.
    split; [reflexivity | eauto].
  - intros e [= <-]. split.
    + destruct (masterPasswordRecord (ciphertext m) (nonce m) (salt m)
                  !! "hashedPassword") as [f|] eqn:E; [|reflexivity].
      apply masterPasswordRecord_lookup in E as [[E _]|[[E _]|[E _]]];
        discriminate.
    + intros name h E.
      apply masterPasswordRecord_lookup in E as [[_ E]|[[_ E]|[_ E]]];
        discriminate.
Qed.

Lemma pristine_agree s : pristine s -> projections_agree s /\ hash_confined s.
Proof.
  intros [Hv He]. unfold projections_agree, hash_confined. rewrite Hv, He.
  split; [exact I | intros e; discriminate].
Qed.

(** Every operation either leaves both projections alone or writes both,
    from the same material. *)
Lemma perform_projections op s :
  projections_untouched s (perform op s) \/ written_together (perform op s).
Proof.
  destruct op as [p|p|cur new|c|]; unfold perform.
  - run_manager.
    destruct (encryptionInitialized s); cbn;
      (destruct (decryptVaultKey _ _ _); cbn;
       [right; eexists (mkMaterial _ _ _ _); cbn; split; apply lookup_insert_eq
       |left; split; reflexivity]).
  - run_manager. unfold rateLimitRecordFailure.
    destruct (vaultsInitialized s); cbn; repeat case_match; simplify_eq;
      cbn; left; split; reflexivity.
  - run_manager. unfold rateLimitRecordFailure.
    cbn; repeat case_match; simplify_eq; cbn; try (left; split; reflexivity).
    all: right; eexists (mkMaterial _ _ _ _); cbn; split; apply lookup_insert_eq.
  - run_manager. repeat case_match; simplify_eq; cbn; left; split; reflexivity.
  - left; split; reflexivity.
Qed.

Lemma reachable_projections s :
  reachable s -> pristine s \/ written_together s.
Proof.
  induction 1 as [s Hp|s op Hr IH]; [left; exact Hp|].
  destruct (perform_projections op s) as [[Hv He]|Hw]; [|right; exact Hw].
  destruct IH as [[Pv Pe]|(m & Wv & We)].
  - left. split; congruence.
  - right. exists m. split; congruence.
Qed.

(** C9.  In every session reachable from one without a master password by
    the manager's operations (create, rotate, both inits, closing the
    vault), the vault-store projection [masterEncryption] and the
    encryption-store projection [masterPassword] are both absent or encode
    the same (ciphertext, nonce, salt); the encryption-store projection has
    no [hashedPassword] field and holds no verification hash under any
    name; and every operation leaves both projections alone or writes both
    from the same material. *)
Theorem projections_written_together (s : Session) :
  reachable s ->
  projections_agree s /\ hash_confined s /\
  forall op,
    projections_untouched s (perform op s) \/ written_together (perform op s).
Proof.
  intros Hr. 
  assert (H : projections_agree s /\ hash_confined s).
  { destruct (reachable_projections s Hr) as [Hp|Hw];
      [apply pristine_agree | apply written_together_agree]; assumption. }
  destruct H as [Ha Hc]. split; [exact Ha|]. split; [exact Hc|].
  intros op. apply perform_projections.
Qed.

(** ** Running the operations *)















(** *** Sessions that protect a vault key under a password *)











End ManagerProperties.

(** ** The statements exercised on concrete collaborators *)

Section ManagerExamples.
Import MasterPasswordManager.


(** C9, exercised: the session right after a master password was created. *)
Lemma projections_written_together_witness :
  let s := perform (@CreateMasterPassword toyCrypto "hunter2"%string)
             (freshSession 1000) in
  projections_agree s /\ hash_confined s.
Proof.
  intros s.
  assert (Hr : reachable s).
  { apply reachable_perform, reachable_pristine. split; reflexivity. }
  destruct (projections_written_together s Hr) as (Ha & Hc & _).
  split; [exact Ha | exact Hc].
Defined.



End ManagerExamples.

(** * Further properties of the rate limiter *)

Section RateLimiterFurther.
Import RateLimiter.

Lemma recordFailure_runs_holding now w o :
  readable w o -> writable w o -> frozen now w ->
  exists w',
    recordFailure w = (Returns tt, w') /\
    storage w' = JsObject (holding o (recordFailure_rule now (read_state o))) /\
    frozen now w'.
Proof.
  intros Hr Hw Hf.
  destruct (recordFailure_after_getData now w w (read_state o)
              (getData_readable w o Hr) Hf) as (w4 & Hrun & Hf4 & Hs4).
  assert (Hw4 : writable w4 o).
  { destruct Hw as [Hs Ha]. split; [congruence | exact Ha]. }
  destruct (storage_add_writable w4 o STORAGE_KEY
              (recordFailure_rule now (read_state o)) Hw4)
    as (w5 & H5 & Hs5 & Hc5 & Hr5).
  exists w5. rewrite Hrun. unfold try_catch. rewrite H5.
  split; [reflexivity|]. split; [exact Hs5|].
  intros i Hi. rewrite Hc5. apply Hf4. lia.
Qed.

Lemma holding_readable_writable w o v :
  storage w = JsObject (holding o v) ->
  get_method o = Some Resolves -> add_method o = Some Resolves ->
  readable w (holding o v) /\ writable w (holding o v) /\
  read_state (holding o v) = v.
Proof.
  intros Hs Hg Ha. repeat split; try assumption.
  unfold read_state, holding. cbn. rewrite lookup_insert_eq. reflexivity.
Qed.

Lemma holding_holding o v v' : holding (holding o v) v' = holding o v'.
Proof. unfold holding. cbn. rewrite insert_insert_eq. reflexivity. Qed.

Lemma recordFailure_rule_recorded_at now c :
  recordFailure_rule now (recorded_at now c) = recorded_at now (c + 1).
Proof.
  unfold recordFailure_rule, step_cooldown, cooldown_applies, recorded_at.
  cbn [lastAttemptTime].
  replace (COOLDOWN_PERIOD_MS <=? now - now) with false
    by (symmetry; apply Z.leb_gt; unfold COOLDOWN_PERIOD_MS, MAX_BACKOFF_MINUTES; lia).
  unfold step_expiry. cbn [lockoutUntil].
  destruct (Z.ltb_spec 0 (calculateBackoffDuration c)) as [Hd|Hd].
  - replace (now + calculateBackoffDuration c <=? now) with false
      by (symmetry; apply Z.leb_gt; lia).
    reflexivity.
  - reflexivity.
Qed.

Lemma recordFailure_rule_default now :
  recordFailure_rule now DEFAULT_DATA = recorded_at now 1.
Proof. reflexivity. Qed.

Lemma recordFailures_from_recorded (n : nat) now w o c :
  storage w = JsObject (holding o (recorded_at now c)) ->
  get_method o = Some Resolves -> add_method o = Some Resolves ->
  frozen now w ->
  exists w',
    recordFailures n w = (Returns tt, w') /\
    storage w' = JsObject (holding o (recorded_at now (c + Z.of_nat n))) /\
    frozen now w'.
Proof.
  revert w c. induction n as [|n IH]; intros w c Hs Hg Ha Hf.
  - exists w. rewrite Z.add_0_r. auto.
  - destruct (holding_readable_writable w o _ Hs Hg Ha) as (Hr & Hw & Hrs).
    destruct (recordFailure_runs_holding now w _ Hr Hw Hf) as (w1 & H1 & Hs1 & Hf1).
    rewrite Hrs, recordFailure_rule_recorded_at, holding_holding in Hs1.
    destruct (IH w1 (c + 1) Hs1 Hg Ha Hf1) as (w' & Hrun & Hs' & Hf').
    exists w'. cbn [recordFailures]. rewrite (bind_returns _ _ _ _ _ H1).
    split; [exact Hrun|]. split; [|exact Hf'].
    rewrite Hs'. do 3 f_equal. lia.
Qed.

Lemma status_view_recorded_at now n :
  0 <= now ->
  status_view now (recorded_at now n)
  = {| isLocked := 5 <=? n;
       lockoutRemainingMs := calculateBackoffDuration n;
       remainingAttempts := if 5 <=? n then 0 else 5 - n |} /\
  attempts_view now (recorded_at now n) = (if 5 <=? n then 0 else 5 - n).
Proof.
  intros Hnow. unfold status_view, attempts_view, expired_at, recorded_at.
  cbn [lockoutUntil consecutiveFailures].
  rewrite calculateBackoffDuration_positive.
  destruct (Z.leb_spec 5 n) as [H5|H5].
  - assert (Hd : 0 < calculateBackoffDuration n)
      by (apply Z.ltb_lt; rewrite calculateBackoffDuration_positive;
          apply Z.leb_le; exact H5).
    replace (now + calculateBackoffDuration n <=? now) with false
      by (symmetry; apply Z.leb_gt; lia).
    replace (now + calculateBackoffDuration n =? 0) with false
      by (symmetry; apply Z.eqb_neq; lia).
    split; [|reflexivity]. f_equal. lia.
  - rewrite (calculateBackoffDuration_below n H5). unfold MAX_ATTEMPTS.
    split; [f_equal|]; lia.
Qed.

(** X1.  Starting from the default state (or no record), [n >= 1] failures
    recorded in a row at one instant leave the counter at [n], lock from the
    fifth on until [now + calculateBackoffDuration n], and the queries then
    report [5 - n] attempts while [n < 5] and a lockout of
    [calculateBackoffDuration n] ms with no attempts from then on. *)
Theorem consecutive_failures_count now w o (n : nat) :
  readable w o -> writable w o -> frozen now w -> 0 <= now ->
  read_state o = DEFAULT_DATA -> (1 <= n)%nat ->
  exists w',
    recordFailures n w = (Returns tt, w') /\
    stored w' = Some (recorded_at now (Z.of_nat n)) /\
    (exists w1,
       getStatus w'
       = (Returns {| isLocked := 5 <=? Z.of_nat n;
                     lockoutRemainingMs := calculateBackoffDuration (Z.of_nat n);
                     remainingAttempts := if 5 <=? Z.of_nat n then 0
                                          else 5 - Z.of_nat n |}, w1) /\
       storage w1 = storage w') /\
    (exists w2,
       getRemainingAttempts w'
       = (Returns (if 5 <=? Z.of_nat n then 0 else 5 - Z.of_nat n), w2)).
Proof.
  intros Hr Hw Hf Hnow Hd Hn. destruct n as [|n]; [lia|].
  destruct (recordFailure_runs_holding now w o Hr Hw Hf) as (w1 & H1 & Hs1 & Hf1).
  rewrite Hd, recordFailure_rule_default in Hs1.
  destruct (recordFailures_from_recorded n now w1 o 1 Hs1 (proj2 Hr) (proj2 Hw) Hf1)
    as (w' & Hrun & Hs' & Hf').
  replace (1 + Z.of_nat n) with (Z.of_nat (S n)) in Hs' by lia.
  destruct (holding_readable_writable w' o _ Hs' (proj2 Hr) (proj2 Hw))
    as (Hr' & Hw' & Hrs').
  pose proof (getData_readable w' _ Hr') as Hg. rewrite Hrs' in Hg.
  assert (Hcool : cooldown_applies now (recorded_at now (Z.of_nat (S n))) = false).
  { unfold cooldown_applies, recorded_at. cbn [lastAttemptTime]. apply Z.leb_gt.
    unfold COOLDOWN_PERIOD_MS, MAX_BACKOFF_MINUTES. lia. }
  destruct (status_view_recorded_at now (Z.of_nat (S n)) Hnow) as [Hsv Hav].
  destruct (getStatus_after_getData now w' w' _ Hg Hf' Hcool) as (w2 & H2 & _ & Hs2).
  destruct (getRemainingAttempts_after_getData now w' w' _ Hg Hf') as (w3 & H3 & _).
  rewrite Hcool in H3. rewrite Hsv in H2. rewrite Hav in H3.
  exists w'. cbn [recordFailures]. rewrite (bind_returns _ _ _ _ _ H1).
  split; [exact Hrun|]. split.
  - unfold stored. rewrite Hs'. cbn. apply lookup_insert_eq.
  - split; [exists w2; auto | exists w3; exact H3].
Qed.

(** X1, exercised: five wrong passwords in a row on a fresh limiter. *)
Lemma consecutive_failures_count_witness :
  let o := memory_storage (Some Resolves) (Some Resolves) None in
  let w := world_at 1000000 (JsObject o) in
  exists w',
    recordFailures 5 w = (Returns tt, w') /\
    stored w' = Some {| consecutiveFailures := 5;
                        lockoutUntil := Some (1000000 + 120000);
                        lastAttemptTime := Some 1000000 |} /\
    (getStatus w').1
    = Returns {| isLocked := true; lockoutRemainingMs := 120000;
                 remainingAttempts := 0 |}.
Proof.
  intros o w.
  assert (Hr : readable w o) by (split; reflexivity).
  assert (Hw : writable w o) by (split; reflexivity).
  assert (Hf : frozen 1000000 w) by (intros i _; reflexivity).
  assert (Hnow : 0 <= 1000000) by lia.
  assert (Hd : read_state o = DEFAULT_DATA) by reflexivity.
  assert (Hn : (1 <= 5)%nat) by lia.
  destruct (consecutive_failures_count 1000000 w o 5 Hr Hw Hf Hnow Hd Hn)
    as (w' & Hrun & Hst & (w1 & Hstatus & _) & _).
  exists w'. split; [exact Hrun|]. split; [exact Hst|].
  rewrite Hstatus. reflexivity.
Defined.

(** X2.  Behind a storage that reads and writes, whatever was stored: a
    [reset] leaves exactly the default state; a second [reset] changes
    nothing more; and right after it the two queries answer "unlocked, 5
    attempts" without reading the clock or writing, for every clock. *)
Theorem reset_restores_default w o :
  readable w o -> writable w o ->
  exists w',
    reset w = (Returns tt, w') /\
    stored w' = Some DEFAULT_DATA /\
    clock w' = clock w /\ reads w' = reads w /\
    reset w' = (Returns tt, w') /\
    getStatus w'
    = (Returns {| isLocked := false; lockoutRemainingMs := 0;
                  remainingAttempts := 5 |}, w') /\
    getRemainingAttempts w' = (Returns 5, w').
Proof.
  intros Hr Hw.
  destruct (storage_add_writable w o STORAGE_KEY DEFAULT_DATA Hw)
    as (w' & Hreset & Hs' & Hc' & Hr').
  fold (holding o DEFAULT_DATA) in Hs'.
  destruct (holding_readable_writable w' o DEFAULT_DATA Hs' (proj2 Hr) (proj2 Hw))
    as (Hrd & Hwr & Hrs).
  pose proof (getData_readable w' _ Hrd) as Hg. rewrite Hrs in Hg.
  exists w'. unfold reset. split; [exact Hreset|].
  split; [unfold stored; rewrite Hs'; cbn; apply lookup_insert_eq|].
  split; [exact Hc'|]. split; [exact Hr'|]. split; [|split].
  - destruct (storage_add_writable w' _ STORAGE_KEY DEFAULT_DATA Hwr)
      as (w'' & Hagain & Hs'' & Hc'' & Hr'').
    fold (holding (holding o DEFAULT_DATA) DEFAULT_DATA) in Hs''.
    rewrite holding_holding in Hs''. rewrite Hagain. f_equal.
    destruct w' as [st clk rd], w'' as [st' clk' rd']. cbn in *. congruence.
  - unfold getStatus. rewrite (bind_returns _ _ _ _ _ Hg). reflexivity.
  - unfold getRemainingAttempts. rewrite (bind_returns _ _ _ _ _ Hg). reflexivity.
Qed.

(** X2, exercised: a reset in the middle of a lockout, on a clock that keeps
    running. *)
Lemma reset_restores_default_witness :
  let o := memory_storage (Some Resolves) (Some Resolves)
             (Some {| consecutiveFailures := 9; lockoutUntil := Some 99999999;
                      lastAttemptTime := Some 5000 |}) in
  let w := {| storage := JsObject o; clock := fun i => 6000 + Z.of_nat i;
              reads := 0 |} in
  exists w',
    reset w = (Returns tt, w') /\ stored w' = Some DEFAULT_DATA /\
    getRemainingAttempts w' = (Returns 5, w').
Proof.
  intros o w.
  assert (Hr : readable w o) by (split; reflexivity).
  assert (Hw : writable w o) by (split; reflexivity).
  destruct (reset_restores_default w o Hr Hw)
    as (w' & Hreset & Hst & _ & _ & _ & _ & Hrem).
  exists w'. auto.
Defined.

(** X3.  While no storage is bound (or a falsy one is), [getData],
    [getStatus] and [getRemainingAttempts] throw "Storage not initialized.",
    [recordFailure] turns that into "Rate limiter unavailable - denying
    attempt", and [reset], which has no such guard, throws a TypeError;
    none of them changes anything. *)
Theorem unbound_limiter_refuses w :
  truthy (storage w) = false ->
  getData w = (Throws (JsError "Storage not initialized."), w) /\
  getStatus w = (Throws (JsError "Storage not initialized."), w) /\
  getRemainingAttempts w = (Throws (JsError "Storage not initialized."), w) /\
  recordFailure w
  = (Throws (JsError "Rate limiter unavailable - denying attempt"), w) /\
  reset w = (Throws TypeError, w).
Proof.
  intros Ht.
  assert (Hg : getData w = (Throws (JsError "Storage not initialized."), w))
    by (unfold getData; rewrite Ht; reflexivity).
  split; [exact Hg|].
  split; [unfold getStatus; rewrite (bind_throws _ _ _ _ _ Hg); reflexivity|].
  split; [unfold getRemainingAttempts; rewrite (bind_throws _ _ _ _ _ Hg);
          reflexivity|].
  split; [apply recordFailure_unbound_denies; exact Ht|].
  unfold reset, storage_add.
  destruct (storage w) as [| |b|n| |str|o]; try reflexivity. discriminate.
Qed.

(** X3, exercised: a limiter straight after construction. *)
Lemma unbound_limiter_refuses_witness :
  let w := world_at 0 JsNull in
  getStatus w = (Throws (JsError "Storage not initialized."), w) /\
  recordFailure w
  = (Throws (JsError "Rate limiter unavailable - denying attempt"), w) /\
  reset w = (Throws TypeError, w).
Proof.
  intros w.
  assert (Ht : truthy (storage w) = false) by reflexivity.
  destruct (unbound_limiter_refuses w Ht) as (_ & Hs & _ & Hrec & Hres).
  auto.
Defined.

Lemma bound_storage_writes_or_fails w :
  truthy (storage w) = true -> (exists o, writable w o) \/ write_fails w.
Proof.
  intros Ht. unfold writable, write_fails, storage_add.
  destruct (storage w) as [| |b|n| |str|o] eqn:Es;
    try (right; split; [exact Ht | intros v; eexists; reflexivity]).
  destruct (add_method o) as [[|]|] eqn:Ea.
  - left. exists o. auto.
  - right. split; [exact Ht | intros v; eexists; reflexivity].
  - right. split; [exact Ht | intros v; eexists; reflexivity].
Qed.

(** X4.  For every clock and whatever the read does: once a storage is
    bound, [recordFailure] returns normally exactly when the storage's
    [add] resolves; in every other case (a rejecting [add], no [add]
    method, a storage that is no object) it throws "Failed to record
    attempt - denying access". *)
Theorem recordFailure_outcome_follows_write w :
  truthy (storage w) = true ->
  ((exists o, writable w o) /\ exists w', recordFailure w = (Returns tt, w')) \/
  (write_fails w /\
   exists w',
     recordFailure w
     = (Throws (JsError "Failed to record attempt - denying access"), w')).
Proof.
  intros Ht. destruct (bound_storage_writes_or_fails w Ht) as [[o Hw]|Hwf].
  - left. split; [exists o; exact Hw|].
    exact (recordFailure_returns_when_write_resolves w o Hw).
  - right. split; [exact Hwf|]. exact (recordFailure_write_fault_denies w Hwf).
Qed.

(** X4, exercised: a storage that reads but whose [add] rejects, on a
    running clock. *)
Lemma recordFailure_outcome_follows_write_witness :
  let o := memory_storage (Some Resolves) (Some Rejects)
             (Some {| consecutiveFailures := 2; lockoutUntil := None;
                      lastAttemptTime := None |}) in
  let w := {| storage := JsObject o; clock := fun i => 7000 + Z.of_nat i;
              reads := 0 |} in
  exists w',
    recordFailure w
    = (Throws (JsError "Failed to record attempt - denying access"), w').
Proof.
  intros o w.
  assert (Ht : truthy (storage w) = true) by reflexivity.
  destruct (recordFailure_outcome_follows_write w Ht)
    as [[[o' [Hs Ha]] _]|[_ Hthrow]].
  - cbn in Hs. injection Hs as <-. discriminate Ha.
  - exact Hthrow.
Defined.

Lemma calculateBackoffDuration_cases (n : Z) :
  (n < 5 /\ calculateBackoffDuration n = 0) \/
  (5 <= n /\ calculateBackoffDuration n
             = Z.min (2 ^ (n - 4) * 60 * 1000) (24 * 60 * 60 * 1000)).
Proof.
  destruct (Z.lt_ge_cases n 5) as [H|H].
  - left. split; [exact H | apply calculateBackoffDuration_below; exact H].
  - right. split; [exact H | apply calculateBackoffDuration_above; exact H].
Qed.

Lemma calculateBackoffDuration_mono (n m : Z) :
  n <= m -> calculateBackoffDuration n <= calculateBackoffDuration m.
Proof.
  intros Hnm.
  destruct (calculateBackoffDuration_cases n) as [[Hn En]|[Hn En]];
    destruct (calculateBackoffDuration_cases m) as [[Hm Em]|[Hm Em]];
    rewrite En, Em; try lia.
  assert (Hp : 2 ^ (n - 4) <= 2 ^ (m - 4)) by (apply Z.pow_le_mono_r; lia).
  revert Hp. generalize (2 ^ (m - 4)), (2 ^ (n - 4)). intros q q' Hp. lia.
Qed.

Lemma calculateBackoffDuration_range (n : Z) :
  0 <= calculateBackoffDuration n <= COOLDOWN_PERIOD_MS.
Proof.
  unfold COOLDOWN_PERIOD_MS, MAX_BACKOFF_MINUTES.
  destruct (calculateBackoffDuration_cases n) as [[Hn En]|[Hn En]]; rewrite En.
  - lia.
  - assert (Hp : 0 < 2 ^ (n - 4)) by (apply Z.pow_pos_nonneg; lia).
    revert Hp. generalize (2 ^ (n - 4)). intros q Hp. lia.
Qed.

(** X5.  The backoff is never negative, never longer than the 24h cooldown
    period, never decreases as the counter grows, is a whole number of
    minutes, and doubles with each failure from the fifth up to the
    fourteenth. *)
Theorem calculateBackoffDuration_shape (n m : Z) :
  0 <= calculateBackoffDuration n <= COOLDOWN_PERIOD_MS /\
  (n <= m -> calculateBackoffDuration n <= calculateBackoffDuration m) /\
  (exists minutes, calculateBackoffDuration n = minutes * 60 * 1000) /\
  (5 <= n <= 13 ->
   calculateBackoffDuration (n + 1) = 2 * calculateBackoffDuration n).
Proof.
  split; [apply calculateBackoffDuration_range|].
  split; [apply calculateBackoffDuration_mono|]. split.
  - unfold calculateBackoffDuration.
    destruct (n <? MAX_ATTEMPTS); [exists 0; reflexivity|]. eexists. reflexivity.
  - intros [H5 H13].
    rewrite !calculateBackoffDuration_above by lia.
    replace (n + 1 - 4) with (Z.succ (n - 4)) by lia.
    rewrite Z.pow_succ_r by lia.
    assert (Hp : 2 ^ (n - 4) <= 2 ^ 9) by (apply Z.pow_le_mono_r; lia).
    assert (Hq : 0 < 2 ^ (n - 4)) by (apply Z.pow_pos_nonneg; lia).
    change (2 ^ 9) with 512 in Hp.
    revert Hp Hq. generalize (2 ^ (n - 4)). intros q Hp Hq. lia.
Qed.

(** X5, exercised: the step from the eighth to the ninth failure. *)
Lemma calculateBackoffDuration_shape_witness :
  calculateBackoffDuration 9 = 2 * calculateBackoffDuration 8 /\
  calculateBackoffDuration 8 <= calculateBackoffDuration 40.
Proof.
  destruct (calculateBackoffDuration_shape 8 40) as (_ & Hmono & _ & Hdouble).
  split; [apply Hdouble; lia | apply Hmono; lia].
Defined.

(** *** The queries under an arbitrary clock *)

Ltac run_limiter :=
  unfold shouldGrantFreshStart, isLockoutExpired, reset, storage_get,
    storage_add, Date_now, try_catch, bind, ret, throw.

Lemma getData_storage w : storage (getData w).2 = storage w.
Proof.
  unfold getData. run_limiter. destruct w as [sto clk rd].
  cbn [storage clock reads]. repeat case_match; simplify_eq; reflexivity.
Qed.

Lemma getData_counter w d w0 :
  getData w = (Returns d, w0) ->
  (forall s, stored w = Some s -> 0 <= consecutiveFailures s) ->
  0 <= consecutiveFailures d.
Proof.
  unfold getData, stored. run_limiter. destruct w as [sto clk rd].
  cbn [storage clock reads]. intros H Hs.
  repeat case_match; simplify_eq; cbn; try lia.
  apply Hs. assumption.
Qed.

(** X6.  For every clock: [getStatus] returns whenever the bound storage's
    [add] resolves; whenever it returns, its answer is well-formed (no
    negative time or attempts, no time left unless locked, no attempts left
    while locked); and the only thing it ever writes is the default state,
    together with the answer "unlocked, 5 attempts". *)
Theorem getStatus_answers_are_sane w :
  (forall o, writable w o -> exists st w', getStatus w = (Returns st, w')) /\
  (forall st w',
     getStatus w = (Returns st, w') ->
     status_sane st /\
     (storage w' = storage w \/
      exists o,
        writable w o /\ storage w' = JsObject (holding o DEFAULT_DATA) /\
        st = {| isLocked := false; lockoutRemainingMs := 0;
                remainingAttempts := 5 |})).
Proof.
  split.
  - intros o [Hso Ha].
    assert (Ht : truthy (storage w) = true) by (rewrite Hso; reflexivity).
    destruct (getData_bound_returns w Ht) as (d & w0 & Hg & Hs0).
    unfold getStatus. rewrite (bind_returns _ _ _ _ _ Hg).
    rewrite Hso in Hs0. clear Hg Ht Hso w.
    run_limiter. destruct w0 as [sto clk rd], d as [cf lu la].
    cbn [storage clock reads lastAttemptTime lockoutUntil consecutiveFailures] in *.
    subst sto.
    cbn [storage clock reads lastAttemptTime lockoutUntil consecutiveFailures].
    repeat case_match; repeat (progress (cbn in *; simplify_eq));
      try congruence; eexists _, _; reflexivity.
  - intros st w'. unfold getStatus. pose proof (getData_storage w) as Hs.
    destruct (getData w) as [[d|e] w0] eqn:Hg; cbn [snd] in Hs.
    2:{ rewrite (bind_throws _ _ _ _ _ Hg). discriminate. }
    rewrite (bind_returns _ _ _ _ _ Hg). unfold writable. rewrite <- Hs.
    clear Hg Hs w.
    run_limiter. destruct w0 as [sto clk rd], d as [cf lu la].
    cbn [storage clock reads lastAttemptTime lockoutUntil consecutiveFailures].
    unfold status_sane, holding, MAX_ATTEMPTS.
    repeat case_match; simplify_eq; cbn; intros; simplify_eq; cbn.
    all: try (split; [repeat split; try lia; try discriminate | left; reflexivity]).
    cbn in *. subst.
    match goal with Ha : add_method ?o = Some Resolves |- _ =>
      split; [repeat split; try lia; try discriminate
             | right; exists o; rewrite Ha; repeat split; reflexivity]
    end.
Qed.

(** X6, exercised: an active lockout seen through a clock that moves between
    the reads of one call. *)
Lemma getStatus_answers_are_sane_witness :
  let o := memory_storage (Some Resolves) (Some Resolves)
             (Some {| consecutiveFailures := 6; lockoutUntil := Some 5000;
                      lastAttemptTime := Some 1000 |}) in
  let w := {| storage := JsObject o; clock := fun i => 4990 + 6 * Z.of_nat i;
              reads := 0 |} in
  exists st w', getStatus w = (Returns st, w') /\ status_sane st /\
                st = {| isLocked := true; lockoutRemainingMs := 0;
                        remainingAttempts := 0 |}.
Proof.
  intros o w.
  destruct (getStatus_answers_are_sane w) as [Hret Hsane].
  assert (Hw : writable w o) by (split; reflexivity).
  destruct (Hret o Hw) as (st & w' & Hrun).
  destruct (Hsane st w' Hrun) as [Hst _].
  exists st, w'. split; [exact Hrun|]. split; [exact Hst|].
  assert (E : (getStatus w).1
              = Returns {| isLocked := true; lockoutRemainingMs := 0;
                           remainingAttempts := 0 |}) by reflexivity.
  rewrite Hrun in E. cbn in E. congruence.
Defined.

(** X7.  [getRemainingAttempts] is a pure query: for every clock and every
    outcome it leaves the storage as it was; it returns whenever a storage
    is bound, failing reads included; and what it returns is never
    negative, and at most 5 when the stored counter is not negative. *)
Theorem getRemainingAttempts_only_reads w :
  storage (getRemainingAttempts w).2 = storage w /\
  (truthy (storage w) = true ->
   exists n w',
     getRemainingAttempts w = (Returns n, w') /\ 0 <= n /\
     ((forall s, stored w = Some s -> 0 <= consecutiveFailures s) -> n <= 5)).
Proof.
  split.
  - unfold getRemainingAttempts. pose proof (getData_storage w) as Hs.
    destruct (getData w) as [[d|e] w0] eqn:Hg; cbn [snd] in Hs.
    2:{ rewrite (bind_throws _ _ _ _ _ Hg). exact Hs. }
    rewrite (bind_returns _ _ _ _ _ Hg), <- Hs. clear Hg Hs w.
    run_limiter. destruct w0 as [sto clk rd], d as [cf lu la].
    cbn [storage clock reads lastAttemptTime lockoutUntil consecutiveFailures].
    repeat case_match; simplify_eq; reflexivity.
  - intros Ht. destruct (getData_bound_returns w Ht) as (d & w0 & Hg & _).
    pose proof (getData_counter w d w0 Hg) as Hc.
    unfold getRemainingAttempts. rewrite (bind_returns _ _ _ _ _ Hg).
    revert Hc. generalize (forall s, stored w = Some s -> 0 <= consecutiveFailures s).
    clear Hg Ht w. intros P Hc.
    run_limiter. destruct w0 as [sto clk rd], d as [cf lu la].
    cbn [storage clock reads lastAttemptTime lockoutUntil consecutiveFailures] in *.
    unfold MAX_ATTEMPTS.
    repeat case_match; simplify_eq; eexists _, _;
      (split; [reflexivity|]); (split; [lia | intros HP; specialize (Hc HP); lia]).
Qed.

(** X7, exercised: two failures on record. *)
Lemma getRemainingAttempts_only_reads_witness :
  let o := memory_storage (Some Resolves) (Some Resolves)
             (Some {| consecutiveFailures := 2; lockoutUntil := None;
                      lastAttemptTime := Some 1000 |}) in
  let w := {| storage := JsObject o; clock := fun i => 2000 + Z.of_nat i;
              reads := 0 |} in
  exists n w', getRemainingAttempts w = (Returns n, w') /\ 0 <= n <= 5 /\
               storage w' = storage w.
Proof.
  intros o w.
  destruct (getRemainingAttempts_only_reads w) as [Hsame Hret].
  assert (Ht : truthy (storage w) = true) by reflexivity.
  destruct (Hret Ht) as (n & w' & Hrun & H0 & H5).
  exists n, w'. split; [exact Hrun|]. split.
  - split; [exact H0|]. apply H5. intros s Hs.
    assert (E : stored w = Some {| consecutiveFailures := 2; lockoutUntil := None;
                                   lastAttemptTime := Some 1000 |}) by reflexivity.
    rewrite E in Hs. injection Hs as <-. cbn. lia.
  - rewrite Hrun in Hsame. exact Hsame.
Defined.

(** *** What the limiter persists *)

Lemma bound_storage_reads_or_fails w :
  truthy (storage w) = true -> (exists o, readable w o) \/ read_fails w.
Proof.
  intros Ht. unfold readable, read_fails, storage_get.
  destruct (storage w) as [| |b|n| |str|o] eqn:Es;
    try (right; split; [exact Ht | eexists; reflexivity]).
  destruct (get_method o) as [[|]|] eqn:Eg.
  - left. exists o. auto.
  - right. split; [exact Ht | eexists; reflexivity].
  - right. split; [exact Ht | eexists; reflexivity].
Qed.

Lemma getData_frozen now w :
  truthy (storage w) = true -> frozen now w ->
  exists d w0, getData w = (Returns d, w0) /\ frozen now w0 /\
               storage w0 = storage w.
Proof.
  intros Ht Hf. destruct (bound_storage_reads_or_fails w Ht) as [[o Hr]|Hrf].
  - exists (read_state o), w. split; [apply getData_readable; exact Hr | auto].
  - destruct (getData_read_fails now w Hrf Hf) as (w0 & Hg & Hf0 & Hs0).
    eexists _, w0. eauto.
Qed.

Lemma recordFailure_rule_is_recorded_at now s :
  exists c, recordFailure_rule now s = recorded_at now c.
Proof. eexists. rewrite recordFailure_rule_fields. reflexivity. Qed.

Lemma recorded_at_lockout now c t :
  lockoutUntil (recorded_at now c) = Some t ->
  5 <= c /\ t = now + calculateBackoffDuration c /\
  now < t <= now + COOLDOWN_PERIOD_MS.
Proof.
  unfold recorded_at. cbn [lockoutUntil].
  pose proof (calculateBackoffDuration_range c) as Hrange.
  rewrite calculateBackoffDuration_positive.
  destruct (Z.leb_spec 5 c) as [H5|H5]; [|discriminate].
  intros [= <-].
  assert (0 < calculateBackoffDuration c)
    by (apply Z.ltb_lt; rewrite calculateBackoffDuration_positive;
        apply Z.leb_le; exact H5).
  lia.
Qed.

(** X8.  Whatever the read did, a [recordFailure] that returns (clock
    standing at [now]) has persisted a state with [lastAttemptTime = now]
    in which a lockout is stored exactly when the counter is at least 5,
    ends at [now + calculateBackoffDuration counter], and so lies in the
    future but never more than the 24h cooldown period ahead.  Hence for
    such a state the lockout has always run out by the time the cooldown
    grants a fresh start. *)
Theorem recordFailure_persists_bounded_lockout now w o :
  writable w o -> frozen now w ->
  exists w' c,
    recordFailure w = (Returns tt, w') /\
    stored w' = Some (recorded_at now c) /\
    lastAttemptTime (recorded_at now c) = Some now /\
    (lockoutUntil (recorded_at now c) = None <-> c < 5) /\
    (forall t, lockoutUntil (recorded_at now c) = Some t ->
               t = now + calculateBackoffDuration c /\
               now < t <= now + COOLDOWN_PERIOD_MS) /\
    (forall later,
       cooldown_applies later (recorded_at now c) = true ->
       forall t, lockoutUntil (recorded_at now c) = Some t -> t <= later).
Proof.
  intros Hw Hf.
  assert (Ht : truthy (storage w) = true) by (destruct Hw as [-> _]; reflexivity).
  destruct (getData_frozen now w Ht Hf) as (d & w0 & Hg & Hf0 & Hs0).
  destruct (recordFailure_after_getData now w w0 d Hg Hf0) as (w4 & Hrun & _ & Hs4).
  destruct (recordFailure_rule_is_recorded_at now d) as [c Hc].
  assert (Hw4 : writable w4 o).
  { destruct Hw as [Hs Ha]. split; [congruence | exact Ha]. }
  destruct (guarded_write_writable w4 o (recordFailure_rule now d)
              "Failed to record attempt - denying access" Hw4)
    as (w5 & H5 & Hst & _).
  exists w5, c. rewrite Hrun, H5, Hst, Hc.
  split; [reflexivity|]. split; [reflexivity|]. split; [reflexivity|].
  split; [|split].
  - unfold recorded_at. cbn [lockoutUntil].
    rewrite calculateBackoffDuration_positive.
    destruct (Z.leb_spec 5 c); split; intros; (discriminate || lia || reflexivity).
  - intros t Hl. destruct (recorded_at_lockout now c t Hl) as (_ & E & Hb). auto.
  - intros later Hcool t Hl.
    destruct (recorded_at_lockout now c t Hl) as (_ & _ & Hb).
    unfold cooldown_applies, recorded_at in Hcool. cbn [lastAttemptTime] in Hcool.
    apply Z.leb_le in Hcool. lia.
Qed.

(** X8, exercised: the sixth failure, with the previous lockout run out. *)
Lemma recordFailure_persists_bounded_lockout_witness :
  let o := memory_storage (Some Resolves) (Some Resolves)
             (Some {| consecutiveFailures := 5; lockoutUntil := Some 1120000;
                      lastAttemptTime := Some 1000000 |}) in
  let w := world_at 1500000 (JsObject o) in
  exists w' c,
    recordFailure w = (Returns tt, w') /\
    stored w' = Some (recorded_at 1500000 c) /\
    forall t, lockoutUntil (recorded_at 1500000 c) = Some t ->
              1500000 < t <= 1500000 + COOLDOWN_PERIOD_MS.
Proof.
  intros o w.
  assert (Hw : writable w o) by (split; reflexivity).
  assert (Hf : frozen 1500000 w) by (intros i _; reflexivity).
  destruct (recordFailure_persists_bounded_lockout 1500000 w o Hw Hf)
    as (w' & c & Hrun & Hst & _ & _ & Hb & _).
  exists w', c. split; [exact Hrun|]. split; [exact Hst|].
  intros t Hl. exact (proj2 (Hb t Hl)).
Defined.

(** The answers of the two queries when the read fails. *)
Lemma read_fault_answers now w :
  read_fails w -> frozen now w ->
  exists w1 w2,
    getStatus w = (Returns {| isLocked := false; lockoutRemainingMs := 0;
                              remainingAttempts := 0 |}, w1) /\
    getRemainingAttempts w = (Returns 4, w2) /\
    storage w1 = storage w /\ storage w2 = storage w.
Proof.
  intros Hrf Hf.
  destruct (getData_read_fails now w Hrf Hf) as (w0 & Hg & Hf0 & Hs0).
  set (d := {| consecutiveFailures := 1;
               lockoutUntil := Some (now + calculateBackoffDuration 1);
               lastAttemptTime := Some now |}) in *.
  assert (Hcool : cooldown_applies now d = false).
  { unfold cooldown_applies, d. cbn [lastAttemptTime]. apply Z.leb_gt.
    unfold COOLDOWN_PERIOD_MS, MAX_BACKOFF_MINUTES. lia. }
  assert (Hexp : (now + calculateBackoffDuration 1 <=? now) = true)
    by (apply Z.leb_le; change (calculateBackoffDuration 1) with 0; lia).
  destruct (getStatus_after_getData now w w0 d Hg Hf0 Hcool) as (w1 & H1 & _ & Hs1).
  destruct (getRemainingAttempts_after_getData now w w0 d Hg Hf0)
    as (w2 & H2 & _ & Hs2).
  rewrite Hcool in H2.
  exists w1, w2. rewrite H1, H2.
  unfold status_view, attempts_view, expired_at, d. cbn [lockoutUntil consecutiveFailures].
  rewrite Hexp. repeat split; congruence.
Qed.

(** X9.  Under a failing read the two queries disagree: [getStatus] reports
    no attempts left, while [getRemainingAttempts] reports 4 (the clock
    standing still); both return normally and neither writes. *)
Theorem queries_disagree_on_read_fault now w :
  read_fails w -> frozen now w ->
  exists w1 w2,
    getStatus w = (Returns {| isLocked := false; lockoutRemainingMs := 0;
                              remainingAttempts := 0 |}, w1) /\
    getRemainingAttempts w = (Returns 4, w2) /\
    storage w1 = storage w /\ storage w2 = storage w.
Proof.
  intros Hrf Hf.
  destruct (getData_read_fails now w Hrf Hf) as (w0 & Hg & Hf0 & Hs0).
  set (d := {| consecutiveFailures := 1;
               lockoutUntil := Some (now + calculateBackoffDuration 1);
               lastAttemptTime := Some now |}) in *.
  assert (Hcool : cooldown_applies now d = false).
  { unfold cooldown_applies, d. cbn [lastAttemptTime]. apply Z.leb_gt.
    unfold COOLDOWN_PERIOD_MS, MAX_BACKOFF_MINUTES. lia. }
  assert (Hexp : (now + calculateBackoffDuration 1 <=? now) = true)
    by (apply Z.leb_le; change (calculateBackoffDuration 1) with 0; lia).
  destruct (getStatus_after_getData now w w0 d Hg Hf0 Hcool) as (w1 & H1 & _ & Hs1).
  destruct (getRemainingAttempts_after_getData now w w0 d Hg Hf0)
    as (w2 & H2 & _ & Hs2).
  rewrite Hcool in H2.
  exists w1, w2. rewrite H1, H2.
  unfold status_view, attempts_view, expired_at, d. cbn [lockoutUntil consecutiveFailures].
  rewrite Hexp. repeat split; congruence.
Qed.

(** X9, exercised: a storage whose [get] rejects. *)
Lemma queries_disagree_on_read_fault_witness :
  let w := world_at 1000000
             (JsObject (memory_storage (Some Rejects) (Some Resolves) None)) in
  (getStatus w).1
  = Returns {| isLocked := false; lockoutRemainingMs := 0; remainingAttempts := 0 |} /\
  (getRemainingAttempts w).1 = Returns 4.
Proof.
  intros w.
  assert (Hrf : read_fails w).
  { split; [reflexivity|]. exists StorageFault. reflexivity. }
  assert (Hf : frozen 1000000 w) by (intros i _; reflexivity).
  destruct (queries_disagree_on_read_fault 1000000 w Hrf Hf)
    as (w1 & w2 & H1 & H2 & _).
  rewrite H1, H2. split; reflexivity.
Defined.

(** X10.  When the cooldown applies but the storage's write fails,
    [getStatus] does not answer: the unguarded [reset] lets the storage's
    own exception through (no limiter denial is substituted), while
    [getRemainingAttempts], which never writes, still returns 5. *)
Theorem getStatus_fresh_start_needs_write now w o s t :
  readable w o -> write_fails w -> frozen now w ->
  contents o !! STORAGE_KEY = Some s ->
  lastAttemptTime s = Some t -> COOLDOWN_PERIOD_MS <= now - t ->
  (exists e w1, getStatus w = (Throws e, w1) /\
                (e = StorageFault \/ e = TypeError) /\ stored w1 = Some s) /\
  (exists w2, getRemainingAttempts w = (Returns 5, w2)).
Proof.
  intros Hr Hwf Hf Hc Hl Ht.
  pose proof (cooldown_applies_stale now s t Hl Ht) as Hcool.
  destruct (readable_read_state w o s Hr Hc) as [Hg Hst].
  destruct (getStatus_after_getData_fresh now w w s Hg Hf Hcool)
    as (w1 & H1 & _ & Hs1).
  destruct (getRemainingAttempts_after_getData now w w s Hg Hf) as (w2 & H2 & _).
  rewrite Hcool in H2. split; [|exists w2; exact H2].
  destruct Hwf as [_ Hwf]. destruct (Hwf DEFAULT_DATA) as [e He].
  destruct (storage_add_same_storage w w1 STORAGE_KEY DEFAULT_DATA Hs1) as [Hthrow _].
  exists e, w1. rewrite H1. unfold reset.
  rewrite (bind_throws _ _ _ _ _ (Hthrow e He)).
  split; [reflexivity|]. split; [|rewrite (stored_same_storage w w1 Hs1); exact Hst].
  revert He. unfold storage_add. destruct Hr as [-> _].
  destruct (add_method o) as [[|]|]; intros [= <-]; auto.
Qed.

(** X10, exercised: a day-old record behind a storage whose [add] rejects. *)
Lemma getStatus_fresh_start_needs_write_witness :
  let s := {| consecutiveFailures := 3; lockoutUntil := None;
              lastAttemptTime := Some 1000 |} in
  let w := world_at 90000000
             (JsObject (memory_storage (Some Resolves) (Some Rejects) (Some s))) in
  (getStatus w).1 = Throws StorageFault /\
  (getRemainingAttempts w).1 = Returns 5.
Proof.
  intros s w.
  set (o := memory_storage (Some Resolves) (Some Rejects) (Some s)).
  assert (Hr : readable w o) by (split; reflexivity).
  assert (Hwf : write_fails w).
  { split; [reflexivity|]. intros v. exists StorageFault. reflexivity. }
  assert (Hf : frozen 90000000 w) by (intros i _; reflexivity).
  assert (Hc : contents o !! STORAGE_KEY = Some s) by reflexivity.
  assert (Hl : lastAttemptTime s = Some 1000) by reflexivity.
  assert (Ht : COOLDOWN_PERIOD_MS <= 90000000 - 1000)
    by (unfold COOLDOWN_PERIOD_MS, MAX_BACKOFF_MINUTES; lia).
  destruct (getStatus_fresh_start_needs_write 90000000 w o s 1000 Hr Hwf Hf Hc Hl Ht)
    as ((e & w1 & H1 & _ & _) & (w2 & H2)).
  rewrite H2. split; reflexivity.
Defined.

(** X11.  Binding a truthy value without the two methods (an object that
    lacks them, a non-zero number, a non-empty string, [true]) succeeds,
    and the limiter then denies: every [recordFailure] throws "Failed to
    record attempt - denying access", [getStatus] reports unlocked with no
    attempts left, [getRemainingAttempts] reports 4, and [reset] throws a
    TypeError. *)
Theorem methodless_storage_denies now w v :
  truthy v = true -> methodless v -> frozen now w ->
  exists w1,
    setStorage v w = (Returns tt, w1) /\ storage w1 = v /\
    (exists w2,
       recordFailure w1
       = (Throws (JsError "Failed to record attempt - denying access"), w2)) /\
    (exists w3,
       getStatus w1 = (Returns {| isLocked := false; lockoutRemainingMs := 0;
                                  remainingAttempts := 0 |}, w3)) /\
    (exists w4, getRemainingAttempts w1 = (Returns 4, w4)) /\
    reset w1 = (Throws TypeError, w1).
Proof.
  intros Ht Hm Hf.
  set (w1 := {| storage := v; clock := clock w; reads := reads w |}).
  assert (Hset : setStorage v w = (Returns tt, w1))
    by (unfold setStorage; rewrite Ht; reflexivity).
  assert (Hf1 : frozen now w1) by exact Hf.
  assert (Hrf : read_fails w1).
  { split; [exact Ht|]. unfold storage_get. cbn [storage w1].
    destruct v as [| |b|n| |str|o]; try (eexists; reflexivity).
    destruct Hm as [-> _]. eexists; reflexivity. }
  assert (Hadd : forall x, storage_add STORAGE_KEY x w1 = (Throws TypeError, w1)).
  { intros x. unfold storage_add. cbn [storage w1].
    destruct v as [| |b|n| |str|o]; try reflexivity.
    destruct Hm as [_ ->]. reflexivity. }
  assert (Hwf : write_fails w1).
  { split; [exact Ht|]. intros x. exists TypeError. apply Hadd. }
  destruct (read_fault_answers now w1 Hrf Hf1)
    as (w3 & w4 & Hst & Hrem & _).
  exists w1. split; [exact Hset|]. split; [reflexivity|].
  split; [exact (recordFailure_write_fault_denies w1 Hwf)|].
  split; [exists w3; exact Hst|]. split; [exists w4; exact Hrem|].
  apply Hadd.
Qed.

(** X11, exercised: an empty object bound as the storage. *)
Lemma methodless_storage_denies_witness :
  let bare := JsObject {| get_method := None; add_method := None; contents := ∅ |} in
  let w := world_at 1000 JsNull in
  exists w1,
    setStorage bare w = (Returns tt, w1) /\
    (exists w2,
       recordFailure w1
       = (Throws (JsError "Failed to record attempt - denying access"), w2)) /\
    reset w1 = (Throws TypeError, w1).
Proof.
  intros bare w.
  assert (Ht : truthy bare = true) by reflexivity.
  assert (Hm : methodless bare) by (split; reflexivity).
  assert (Hf : frozen 1000 w) by (intros i _; reflexivity).
  destruct (methodless_storage_denies 1000 w bare Ht Hm Hf)
    as (w1 & Hset & _ & Hrec & _ & _ & Hres).
  exists w1. auto.
Defined.

(** X12.  With the clock standing at an instant [now] of the epoch clock
    and a storage that reads: whenever [getStatus] returns, it reports
    locked exactly when it reports a positive remaining time, and that time
    is then the distance from [now] to the stored [lockoutUntil]. *)
Theorem locked_means_time_remaining now w o st w' :
  readable w o -> frozen now w -> 0 <= now ->
  getStatus w = (Returns st, w') ->
  (isLocked st = true <-> 0 < lockoutRemainingMs st) /\
  (isLocked st = true ->
   exists t, lockoutUntil (read_state o) = Some t /\ now < t /\
             lockoutRemainingMs st = t - now).
Proof.
  intros Hr Hf Hnow Hrun.
  pose proof (getData_readable w o Hr) as Hg.
  destruct (cooldown_applies now (read_state o)) eqn:Hcool.
  - destruct (getStatus_after_getData_fresh now w w _ Hg Hf Hcool)
      as (w1 & H1 & _ & _).
    rewrite H1 in Hrun. unfold reset, bind in Hrun.
    destruct (storage_add STORAGE_KEY DEFAULT_DATA w1) as [[[]|e] w2];
      [|discriminate].
    injection Hrun as <- <-. cbn. split; [split; [discriminate | lia] | discriminate].
  - destruct (getStatus_after_getData now w w _ Hg Hf Hcool) as (w1 & H1 & _ & _).
    rewrite H1 in Hrun. injection Hrun as <- <-.
    unfold status_view, expired_at.
    destruct (lockoutUntil (read_state o)) as [t|].
    + destruct (Z.leb_spec t now) as [Hle|Hlt]; cbn.
      * split; [split; [discriminate | lia] | discriminate].
      * destruct (Z.eqb_spec t 0) as [->|Hne]; [lia|].
        split; [split; [lia | reflexivity]|].
        intros _. exists t. split; [reflexivity|]. split; lia.
    + cbn. split; [split; [discriminate | lia] | discriminate].
Qed.

(** X12, exercised: a lockout with 60 s to go. *)
Lemma locked_means_time_remaining_witness :
  let s := {| consecutiveFailures := 5; lockoutUntil := Some 1060000;
              lastAttemptTime := Some 1000000 |} in
  let o := memory_storage (Some Resolves) (Some Resolves) (Some s) in
  let w := world_at 1000000 (JsObject o) in
  exists st, (getStatus w).1 = Returns st /\ isLocked st = true /\
             lockoutRemainingMs st = 1060000 - 1000000.
Proof.
  intros s o w.
  assert (Hr : readable w o) by (split; reflexivity).
  assert (Hf : frozen 1000000 w) by (intros i _; reflexivity).
  assert (Hnow : 0 <= 1000000) by lia.
  destruct (getStatus w) as [[st|e] w'] eqn:Hrun; [|discriminate Hrun].
  destruct (locked_means_time_remaining 1000000 w o st w' Hr Hf Hnow Hrun)
    as [Hiff Hlocked].
  assert (Hl : isLocked st = true).
  { assert (E : (getStatus w).1
                = Returns {| isLocked := true; lockoutRemainingMs := 60000;
                             remainingAttempts := 0 |}) by reflexivity.
    rewrite Hrun in E. cbn in E. injection E as ->. reflexivity. }
  destruct (Hlocked Hl) as (t & Ht & _ & Hms).
  exists st. split; [reflexivity|]. split; [exact Hl|].
  assert (Et : lockoutUntil (read_state o) = Some 1060000) by reflexivity.
  rewrite Et in Ht. injection Ht as <-. exact Hms.
Defined.

Lemma recordFailure_rule_after_recorded now t0 c :
  now - t0 < COOLDOWN_PERIOD_MS ->
  recordFailure_rule now (recorded_at t0 c) = recorded_at now (c + 1).
Proof.
  intros Hgap.
  unfold recordFailure_rule, step_cooldown, cooldown_applies, step_expiry,
    step_count, step_lockout, recorded_at.
  cbn [lastAttemptTime lockoutUntil consecutiveFailures].
  replace (COOLDOWN_PERIOD_MS <=? now - t0) with false
    by (symmetry; apply Z.leb_gt; exact Hgap).
  cbn [lastAttemptTime lockoutUntil consecutiveFailures].
  destruct (0 <? calculateBackoffDuration c);
    [destruct (t0 + calculateBackoffDuration c <=? now)|]; reflexivity.
Qed.

(** X13.  A failure recorded less than 24h after the previous one (and not
    before it) always counts on from the stored counter, whether the
    previous lockout has run out or is still active, and never shortens a
    lockout: the new [lockoutUntil] is not earlier than the one it
    replaces. *)
Theorem recordFailure_never_shortens_lockout now t0 c w o :
  readable w o -> writable w o -> frozen now w ->
  contents o !! STORAGE_KEY = Some (recorded_at t0 c) ->
  t0 <= now -> now - t0 < COOLDOWN_PERIOD_MS ->
  exists w',
    recordFailure w = (Returns tt, w') /\
    stored w' = Some (recorded_at now (c + 1)) /\
    forall t, lockoutUntil (recorded_at t0 c) = Some t ->
              exists t', lockoutUntil (recorded_at now (c + 1)) = Some t' /\
                         t <= t' /\ now < t'.
Proof.
  intros Hr Hw Hf Hc H0 Hgap.
  destruct (recordFailure_runs now w o Hr Hw Hf) as (w' & Hrun & Hst & _).
  assert (Es : read_state o = recorded_at t0 c)
    by (unfold read_state; rewrite Hc; reflexivity).
  rewrite Es, (recordFailure_rule_after_recorded now t0 c Hgap) in Hst.
  exists w'. split; [exact Hrun|]. split; [exact Hst|].
  intros t Hl. destruct (recorded_at_lockout t0 c t Hl) as (H5 & -> & _).
  pose proof (calculateBackoffDuration_mono c (c + 1) ltac:(lia)) as Hm.
  assert (Hpos : 0 < calculateBackoffDuration (c + 1)).
  { apply Z.ltb_lt. rewrite calculateBackoffDuration_positive. apply Z.leb_le. lia. }
  exists (now + calculateBackoffDuration (c + 1)).
  unfold recorded_at. cbn [lockoutUntil].
  replace (0 <? calculateBackoffDuration (c + 1)) with true
    by (symmetry; apply Z.ltb_lt; exact Hpos).
  split; [reflexivity|]. lia.
Qed.

(** X13, exercised: a sixth failure half a minute into a two-minute
    lockout. *)
Lemma recordFailure_never_shortens_lockout_witness :
  let o := memory_storage (Some Resolves) (Some Resolves)
             (Some (recorded_at 1000000 5)) in
  let w := world_at 1030000 (JsObject o) in
  exists w',
    recordFailure w = (Returns tt, w') /\
    stored w' = Some {| consecutiveFailures := 6;
                        lockoutUntil := Some (1030000 + 240000);
                        lastAttemptTime := Some 1030000 |}.
Proof.
  intros o w.
  assert (Hr : readable w o) by (split; reflexivity).
  assert (Hw : writable w o) by (split; reflexivity).
  assert (Hf : frozen 1030000 w) by (intros i _; reflexivity).
  assert (Hc : contents o !! STORAGE_KEY = Some (recorded_at 1000000 5))
    by reflexivity.
  assert (H0 : 1000000 <= 1030000) by lia.
  assert (Hgap : 1030000 - 1000000 < COOLDOWN_PERIOD_MS)
    by (unfold COOLDOWN_PERIOD_MS, MAX_BACKOFF_MINUTES; lia).
  destruct (recordFailure_never_shortens_lockout 1030000 1000000 5 w o
              Hr Hw Hf Hc H0 Hgap) as (w' & Hrun & Hst & _).
  exists w'. split; [exact Hrun | exact Hst].
Defined.

(** X18.  Both time comparisons are inclusive.  A lockout counts as run out
    at the very instant [lockoutUntil] (unlocked, no attempts), and one
    millisecond earlier the status is still locked with 1 ms to go; the
    fresh start is granted at exactly 24h after the last attempt, and one
    millisecond earlier the stored counter still decides. *)
Theorem time_boundaries_are_inclusive now w o s t :
  readable w o -> frozen now w -> 0 <= now ->
  contents o !! STORAGE_KEY = Some s ->
  (cooldown_applies now s = false -> lockoutUntil s = Some t ->
   (t = now ->
    exists w', getStatus w = (Returns {| isLocked := false; lockoutRemainingMs := 0;
                                         remainingAttempts := 0 |}, w')) /\
   (t = now + 1 ->
    exists w', getStatus w = (Returns {| isLocked := true; lockoutRemainingMs := 1;
                                         remainingAttempts := 0 |}, w'))) /\
  (lastAttemptTime s = Some t -> lockoutUntil s = None ->
   (now - t = COOLDOWN_PERIOD_MS ->
    exists w', getRemainingAttempts w = (Returns 5, w')) /\
   (now - t = COOLDOWN_PERIOD_MS - 1 ->
    exists w', getRemainingAttempts w
               = (Returns (Z.max 0 (5 - consecutiveFailures s)), w'))).
Proof.
  intros Hr Hf Hnow Hc.
  destruct (readable_read_state w o s Hr Hc) as [Hg _].
  split.
  - intros Hcool Hl.
    destruct (getStatus_after_getData now w w s Hg Hf Hcool) as (w1 & H1 & _).
    unfold status_view, expired_at in H1. rewrite Hl in H1.
    split; intros ->.
    + rewrite Z.leb_refl in H1. exists w1. exact H1.
    + replace (now + 1 <=? now) with false in H1 by (symmetry; apply Z.leb_gt; lia).
      replace (now + 1 =? 0) with false in H1 by (symmetry; apply Z.eqb_neq; lia).
      replace (Z.max 0 (now + 1 - now)) with 1 in H1 by lia.
      exists w1. exact H1.
  - intros Hla Hl.
    destruct (getRemainingAttempts_after_getData now w w s Hg Hf) as (w1 & H1 & _).
    unfold cooldown_applies, attempts_view in H1. rewrite Hla, Hl in H1.
    split; intros Hd; rewrite Hd in H1; exists w1.
    + rewrite Z.leb_refl in H1. exact H1.
    + replace (COOLDOWN_PERIOD_MS <=? COOLDOWN_PERIOD_MS - 1) with false in H1
        by (symmetry; apply Z.leb_gt; lia).
      exact H1.
Qed.

(** X18, exercised: exactly 24h after the last of three failures. *)
Lemma time_boundaries_are_inclusive_witness :
  let s := {| consecutiveFailures := 3; lockoutUntil := None;
              lastAttemptTime := Some 1000 |} in
  let o := memory_storage (Some Resolves) (Some Resolves) (Some s) in
  (exists w', getRemainingAttempts (world_at 86401000 (JsObject o)) = (Returns 5, w')) /\
  (exists w', getRemainingAttempts (world_at 86400999 (JsObject o)) = (Returns 2, w')).
Proof.
  intros s o.
  assert (Hc : contents o !! STORAGE_KEY = Some s) by reflexivity.
  assert (Hla : lastAttemptTime s = Some 1000) by reflexivity.
  assert (Hl : lockoutUntil s = None) by reflexivity.
  split.
  - set (w := world_at 86401000 (JsObject o)).
    assert (Hr : readable w o) by (split; reflexivity).
    assert (Hf : frozen 86401000 w) by (intros i _; reflexivity).
    assert (Hnow : 0 <= 86401000) by lia.
    destruct (time_boundaries_are_inclusive 86401000 w o s 1000 Hr Hf Hnow Hc)
      as [_ Hcool].
    destruct (Hcool Hla Hl) as [Hat _]. apply Hat. reflexivity.
  - set (w := world_at 86400999 (JsObject o)).
    assert (Hr : readable w o) by (split; reflexivity).
    assert (Hf : frozen 86400999 w) by (intros i _; reflexivity).
    assert (Hnow : 0 <= 86400999) by lia.
    destruct (time_boundaries_are_inclusive 86400999 w o s 1000 Hr Hf Hnow Hc)
      as [_ Hcool].
    destruct (Hcool Hla Hl) as [_ Hbefore]. apply Hbefore. reflexivity.
Defined.

End RateLimiterFurther.

(** * Properties of the request stream *)

Section AppIpcProperties.
Import AppIpc.

Lemma foldl_register_trace l t : trace (foldl register t l) = trace t.
Proof. revert t. induction l as [|r l IH]; intros t; [reflexivity|]. cbn. rewrite IH. reflexivity. Qed.

Lemma traced_encodeMeta env data : traced [Encoded] (encodeMeta env data).
Proof.
  intros t. unfold encodeMeta, bind, log.
  destruct (encode env (key data) (name data)); eexists; reflexivity.
Qed.

Lemma traced_readFile env data :
  traced [ReadAttempt (filePath data)] (readFile env data).
Proof.
  intros t. unfold readFile, bind, log.
  destruct (readFileSync env (filePath data)); eexists; reflexivity.
Qed.

Lemma traced_ret a : traced [] (ret a).
Proof.
  intros [l tr]. exists (Returns a). unfold ret. cbn. rewrite app_nil_r. reflexivity.
Qed.

(** The three ways an optional call can go: skipped because no listener
    is registered; thrown out of before the listener ran (the argument
    threw, or the listener is no function); or the listener was called. *)
Lemma emit_cases event pre argument t :
  traced pre argument ->
  (emit event argument t = (Returns tt, t) /\
   (listeners t !! event = None \/ listeners t !! event = Some Nullish)) \/
  (exists e t', emit event argument t = (Throws e, t') /\
                trace t' = trace t ++ pre) \/
  (exists id a res t', emit event argument t = (res, t') /\
                       trace t' = trace t ++ pre ++ [Called event id a]).
Proof.
  intros Ha. unfold emit.
  destruct (listeners t !! event) as [[| |id run]|]; auto.
  - destruct (Ha t) as [[a|e] E]; rewrite E; right; left;
      eexists _, _; split; reflexivity.
  - destruct (Ha t) as [[a|e] E]; rewrite E.
    + right; right. exists id, a.
      destruct (run a).2; eexists _, _; (split; [reflexivity|]);
        rewrite foldl_register_trace; cbn; rewrite <- app_assoc; reflexivity.
    + right; left. eexists _, _; split; reflexivity.
Qed.

Lemma emit_skips event argument t :
  listeners t !! event = None \/ listeners t !! event = Some Nullish ->
  emit event argument t = (Returns tt, t).
Proof. intros [H|H]; unfold emit; rewrite H; reflexivity. Qed.

Ltac disciplined_list :=
  unfold disciplined; vm_compute;
  repeat split; try lia; try discriminate;
  try (intros _; first
         [ eexists [], _, _; reflexivity
         | eexists [_], _, _; reflexivity
         | eexists [_; _], _, _; reflexivity
         | eexists [_; _; _], _, _; reflexivity
         | eexists [_; _; _; _], _, _; reflexivity
         | eexists [_; _; _; _; _], _, _; reflexivity ]).

(** The handler of the [catch]: at most one call of the error listener. *)
Lemma handler_adds err t l base :
  disciplined l ->
  (forall id a, disciplined (l ++ [Called "error" id a])) ->
  trace t = base ++ l ->
  exists added,
    trace (emit "error" (ret (Caught err)) t).2 = base ++ added /\
    disciplined added.
Proof.
  intros H0 H1 Ht.
  destruct (emit_cases "error" [] (ret (Caught err)) t (traced_ret _))
    as [[E _]|[(e & t' & E & Htr)|(id & a & res & t' & E & Htr)]]; rewrite E;
    cbn [snd].
  - exists l. auto.
  - exists l. rewrite Htr, Ht, app_nil_r. auto.
  - exists (l ++ [Called "error" id a]). rewrite Htr, Ht, <- app_assoc. auto.
Qed.

Lemma try_catch_with_returns {W A B} (m : Comp W A) (k : A -> Comp W B) h w a w' :
  m w = (Returns a, w') ->
  AppIpc.try_catch_with (bind m k) h w = AppIpc.try_catch_with (k a) h w'.
Proof. intros E. unfold AppIpc.try_catch_with, bind. rewrite E. reflexivity. Qed.

Lemma try_catch_with_throws {W A B} (m : Comp W A) (k : A -> Comp W B) h w e w' :
  m w = (Throws e, w') ->
  AppIpc.try_catch_with (bind m k) h w = h e w'.
Proof. intros E. unfold AppIpc.try_catch_with, bind. rewrite E. reflexivity. Qed.

(** The last step, [listeners.end?.()], inside the [try]. *)
Lemma end_step_adds t l base :
  trace t = base ++ l ->
  disciplined l ->
  (forall id a, disciplined (l ++ [Called "error" id a])) ->
  (forall id a, disciplined (l ++ [Called "end" id a])) ->
  (forall id a id' a',
     disciplined ((l ++ [Called "end" id a]) ++ [Called "error" id' a'])) ->
  exists added,
    trace (try_catch_with (emit "end" (ret NoArgument))
             (fun err => emit "error" (ret (Caught err))) t).2 = base ++ added /\
    disciplined added.
Proof.
  intros Ht H0 He Hn Hne. unfold try_catch_with.
  destruct (emit_cases "end" [] (ret NoArgument) t (traced_ret _))
    as [[E _]|[(e & t' & E & Htr)|(id & a & res & t' & E & Htr)]]; rewrite E.
  - exists l. auto.
  - apply (handler_adds e t' l base H0 He). rewrite Htr, Ht, app_nil_r. reflexivity.
  - assert (Ht' : trace t' = base ++ (l ++ [Called "end" id a]))
      by (rewrite Htr, Ht, <- app_assoc; reflexivity).
    destruct res as [[]|e].
    + exists (l ++ [Called "end" id a]). auto.
    + exact (handler_adds e t' _ base (Hn id a) (Hne id a) Ht').
Qed.

(** X14.  Whatever the listeners are and do, and whatever the encoder and
    the file system do, one delivery calls only the data, end and error
    listeners; data at most twice, end at most once, error at most once;
    it reads the file at most once and only in a delivery that calls a data
    listener; and a call of the error listener is the last thing it
    does. *)
Theorem deliver_is_disciplined env data t :
  exists added,
    trace (deliver env data t).2 = trace t ++ added /\ disciplined added.
Proof.
  unfold deliver.
  destruct (emit_cases "data" [Encoded] (encodeMeta env data) t
              (traced_encodeMeta env data))
    as [[E1 Hno]|[(e & t1 & E1 & Htr1)|(id1 & a1 & res1 & t1 & E1 & Htr1)]].
  - (* no data listener: nothing is encoded or read *)
    rewrite (try_catch_with_returns _ _ _ _ _ _ E1).
    rewrite (try_catch_with_returns _ _ _ _ _ _
               (emit_skips "data" (readFile env data) t Hno)).
    apply (end_step_adds t [] (trace t)); [symmetry; apply app_nil_r| | | |];
      intros; disciplined_list.
  - rewrite (try_catch_with_throws _ _ _ _ _ _ E1).
    apply (handler_adds e t1 [Encoded] (trace t)); [| |exact Htr1];
      intros; disciplined_list.
  - destruct res1 as [[]|e].
    2:{ rewrite (try_catch_with_throws _ _ _ _ _ _ E1).
        apply (handler_adds e t1 ([Encoded] ++ [Called "data" id1 a1]) (trace t));
          [| |exact Htr1]; intros; disciplined_list. }
    rewrite (try_catch_with_returns _ _ _ _ _ _ E1).
    destruct (emit_cases "data" [ReadAttempt (filePath data)] (readFile env data) t1
                (traced_readFile env data))
      as [[E2 _]|[(e & t2 & E2 & Htr2)|(id2 & a2 & res2 & t2 & E2 & Htr2)]].
    + rewrite (try_catch_with_returns _ _ _ _ _ _ E2).
      apply (end_step_adds t1 ([Encoded] ++ [Called "data" id1 a1]) (trace t) Htr1);
        intros; disciplined_list.
    + rewrite (try_catch_with_throws _ _ _ _ _ _ E2).
      apply (handler_adds e t2
               (([Encoded] ++ [Called "data" id1 a1]) ++ [ReadAttempt (filePath data)])
               (trace t));
        [| |rewrite Htr2, Htr1, <- !app_assoc; reflexivity];
        intros; disciplined_list.
    + assert (Ht2 : trace t2
                    = trace t ++ ([Encoded; Called "data" id1 a1] ++
                                  [ReadAttempt (filePath data); Called "data" id2 a2]))
        by (rewrite Htr2, Htr1, <- !app_assoc; reflexivity).
      destruct res2 as [[]|e].
      * rewrite (try_catch_with_returns _ _ _ _ _ _ E2).
        apply (end_step_adds t2 ([Encoded; Called "data" id1 a1] ++
                                 [ReadAttempt (filePath data); Called "data" id2 a2])
                 (trace t) Ht2); intros; disciplined_list.
      * rewrite (try_catch_with_throws _ _ _ _ _ _ E2).
        apply (handler_adds e t2 ([Encoded; Called "data" id1 a1] ++
                                  [ReadAttempt (filePath data); Called "data" id2 a2])
                 (trace t)); [| |exact Ht2]; intros; disciplined_list.
Qed.

(** X14, exercised: a data listener that throws on the metadata. *)
Lemma deliver_is_disciplined_witness :
  let env := {| encode := fun _ _ => Returns "meta"%string;
                readFileSync := fun _ => Returns "file"%string |} in
  let data := {| filePath := Some (JString "/tmp/a"); key := None; name := None |} in
  let t := on "error" (receiver 9)
             (on "data" (Function 1 (fun _ => ([], Some TypeError)))
                {| listeners := ∅; trace := [] |}) in
  exists added,
    trace (deliver env data t).2 = added /\ disciplined added /\
    added = [Encoded; Called "data" 1 (Bytes "meta"); Called "error" 9 (Caught TypeError)].
Proof.
  intros env data t.
  destruct (deliver_is_disciplined env data t) as (added & Htr & Hd).
  exists added. split; [exact Htr|]. split; [exact Hd|].
  transitivity (trace (deliver env data t).2); [symmetry; exact Htr | reflexivity].
Defined.

Lemma emit_receiver event argument t id a t1 :
  listeners t !! event = Some (receiver id) ->
  argument t = (Returns a, t1) ->
  emit event argument t
  = (Returns tt, {| listeners := listeners t1;
                    trace := trace t1 ++ [Called event id a] |}).
Proof. intros Hl Ha. unfold emit. rewrite Hl, Ha. reflexivity. Qed.

(** X15.  With plain receiving listeners on data and end, a metadata
    encoding that succeeds and a file that can be read, one delivery
    returns normally after exactly: the metadata to the data listener, one
    read of the file, the file's bytes to the data listener, and the end
    listener called without argument, in this order. *)
Theorem deliver_in_order env data t d e m b :
  listeners t !! "data" = Some (receiver d) ->
  listeners t !! "end" = Some (receiver e) ->
  encode env (key data) (name data) = Returns m ->
  readFileSync env (filePath data) = Returns b ->
  deliver env data t
  = (Returns tt,
     {| listeners := listeners t;
        trace := trace t ++ [Encoded; Called "data" d (Bytes m);
                             ReadAttempt (filePath data);
                             Called "data" d (Bytes b);
                             Called "end" e NoArgument] |}).
Proof.
  intros Hd He Hm Hb. unfold deliver.
  assert (A1 : encodeMeta env data t
               = (Returns (Bytes m),
                  {| listeners := listeners t; trace := trace t ++ [Encoded] |}))
    by (unfold encodeMeta, bind, log; rewrite Hm; reflexivity).
  rewrite (try_catch_with_returns _ _ _ _ _ _
             (emit_receiver "data" (encodeMeta env data) t d _ _ Hd A1)).
  cbn [listeners trace].
  set (t1 := {| listeners := listeners t;
                trace := (trace t ++ [Encoded]) ++ [Called "data" d (Bytes m)] |}).
  assert (A2 : readFile env data t1
               = (Returns (Bytes b),
                  {| listeners := listeners t1;
                     trace := trace t1 ++ [ReadAttempt (filePath data)] |}))
    by (unfold readFile, bind, log; rewrite Hb; reflexivity).
  rewrite (try_catch_with_returns _ _ _ _ _ _
             (emit_receiver "data" (readFile env data) t1 d _ _ Hd A2)).
  cbn [listeners trace t1].
  unfold try_catch_with.
  erewrite emit_receiver; [|exact He|reflexivity].
  cbn [listeners trace]. rewrite <- !app_assoc. reflexivity.
Qed.

(** X15, exercised. *)
Lemma deliver_in_order_witness :
  let env := {| encode := fun _ _ => Returns "meta"%string;
                readFileSync := fun _ => Returns "file"%string |} in
  let data := {| filePath := Some (JString "/tmp/a"); key := None; name := None |} in
  let t := on "end" (receiver 2)
             (on "data" (receiver 1) {| listeners := ∅; trace := [] |}) in
  trace (deliver env data t).2
  = [Encoded; Called "data" 1 (Bytes "meta"); ReadAttempt (Some (JString "/tmp/a"));
     Called "data" 1 (Bytes "file"); Called "end" 2 NoArgument].
Proof.
  intros env data t.
  assert (Hd : listeners t !! "data" = Some (receiver 1)) by reflexivity.
  assert (He : listeners t !! "end" = Some (receiver 2)) by reflexivity.
  assert (Hm : encode env (key data) (name data) = Returns "meta"%string)
    by reflexivity.
  assert (Hb : readFileSync env (filePath data) = Returns "file"%string)
    by reflexivity.
  rewrite (deliver_in_order env data t 1%nat 2%nat "meta" "file" Hd He Hm Hb).
  reflexivity.
Defined.

(** X16.  With listeners that only receive (they neither throw nor
    register), when the file cannot be read the data listener has already
    received the metadata; the error then goes to the error listener, the
    end listener is never called, and the delivery still returns normally.
    With no error listener registered the error is dropped silently. *)
Theorem deliver_read_failure env data t d m err :
  listeners t !! "data" = Some (receiver d) ->
  encode env (key data) (name data) = Returns m ->
  readFileSync env (filePath data) = Throws err ->
  (forall r, listeners t !! "error" = Some (receiver r) ->
     deliver env data t
     = (Returns tt,
        {| listeners := listeners t;
           trace := trace t ++ [Encoded; Called "data" d (Bytes m);
                                ReadAttempt (filePath data);
                                Called "error" r (Caught err)] |})) /\
  (listeners t !! "error" = None ->
     deliver env data t
     = (Returns tt,
        {| listeners := listeners t;
           trace := trace t ++ [Encoded; Called "data" d (Bytes m);
                                ReadAttempt (filePath data)] |})).
Proof.
  intros Hd Hm Hb.
  assert (A1 : encodeMeta env data t
               = (Returns (Bytes m),
                  {| listeners := listeners t; trace := trace t ++ [Encoded] |}))
    by (unfold encodeMeta, bind, log; rewrite Hm; reflexivity).
  set (t1 := {| listeners := listeners t;
                trace := (trace t ++ [Encoded]) ++ [Called "data" d (Bytes m)] |}).
  assert (A2 : emit "data" (readFile env data) t1
               = (Throws err,
                  {| listeners := listeners t;
                     trace := trace t1 ++ [ReadAttempt (filePath data)] |})).
  { unfold emit. cbn [listeners t1]. rewrite Hd.
    unfold readFile, bind, log. rewrite Hb. reflexivity. }
  assert (E : deliver env data t
              = emit "error" (ret (Caught err))
                  {| listeners := listeners t;
                     trace := trace t1 ++ [ReadAttempt (filePath data)] |}).
  { unfold deliver.
    rewrite (try_catch_with_returns _ _ _ _ _ _
             (emit_receiver "data" (encodeMeta env data) t d _ _ Hd A1)).
    cbn [listeners trace]. fold t1.
    rewrite (try_catch_with_throws _ _ _ _ _ _ A2). reflexivity. }
  rewrite E. split.
  - intros r Hr. erewrite emit_receiver; [|exact Hr|reflexivity].
    cbn [listeners trace t1]. rewrite <- !app_assoc. reflexivity.
  - intros Hr. rewrite emit_skips by (left; exact Hr).
    cbn [listeners trace t1]. rewrite <- !app_assoc. reflexivity.
Qed.

(** X16, exercised: the file is missing. *)
Lemma deliver_read_failure_witness :
  let env := {| encode := fun _ _ => Returns "meta"%string;
                readFileSync := fun _ => Throws (JsError "ENOENT") |} in
  let data := {| filePath := Some (JString "/tmp/a"); key := None; name := None |} in
  let t := on "error" (receiver 3)
             (on "end" (receiver 2)
                (on "data" (receiver 1) {| listeners := ∅; trace := [] |})) in
  trace (deliver env data t).2
  = [Encoded; Called "data" 1 (Bytes "meta"); ReadAttempt (Some (JString "/tmp/a"));
     Called "error" 3 (Caught (JsError "ENOENT"))].
Proof.
  intros env data t.
  assert (Hd : listeners t !! "data" = Some (receiver 1)) by reflexivity.
  assert (Hm : encode env (key data) (name data) = Returns "meta"%string)
    by reflexivity.
  assert (Hb : readFileSync env (filePath data) = Throws (JsError "ENOENT"))
    by reflexivity.
  destruct (deliver_read_failure env data t 1%nat "meta" (JsError "ENOENT") Hd Hm Hb)
    as [Herr _].
  assert (Hr : listeners t !! "error" = Some (receiver 3)) by reflexivity.
  rewrite (Herr 3%nat Hr). reflexivity.
Defined.

(** X17.  A stream is created exactly when the request names a file with a
    truthy [filePath].  On a stream without a data listener nothing is
    encoded and the file is never read: the delivery does not depend on
    the environment at all, and a receiving end listener is told the stream
    ended, whether or not the file exists.  Registering a second listener
    for an event replaces the first. *)
Theorem stream_without_data_listener env env' data t :
  (forall od, createRequestStream od = None <->
              (forall d p, od = Some d -> filePath d = Some p ->
                           json_truthy p = false)) /\
  (listeners t !! "data" = None ->
   deliver env data t = deliver env' data t /\
   forall e, listeners t !! "end" = Some (receiver e) ->
             deliver env data t
             = (Returns tt, {| listeners := listeners t;
                               trace := trace t ++ [Called "end" e NoArgument] |})) /\
  (forall ev cb cb', deliver env data (on ev cb' (on ev cb t))
                     = deliver env data (on ev cb' t)).
Proof.
  split; [|split].
  - intros [d|]; cbn.
    + destruct (filePath d) as [p|] eqn:Ef.
      * destruct (json_truthy p) eqn:Ep; split.
        -- discriminate.
        -- intros H. specialize (H d p eq_refl Ef). congruence.
        -- intros _ d' p' [= <-] Ef'. rewrite Ef in Ef'.
           injection Ef' as <-. exact Ep.
        -- reflexivity.
      * split; [|reflexivity].
        intros _ d' p' [= <-] Ef'. rewrite Ef in Ef'. discriminate.
    + split; [intros _ d' p'; discriminate | reflexivity].
  - intros Hno.
    assert (E : forall en, deliver en data t
                = try_catch_with (emit "end" (ret NoArgument))
                    (fun err => emit "error" (ret (Caught err))) t).
    { intros en. unfold deliver.
      rewrite (try_catch_with_returns _ _ _ _ _ _
                 (emit_skips "data" (encodeMeta en data) t (or_introl Hno))).
      rewrite (try_catch_with_returns _ _ _ _ _ _
                 (emit_skips "data" (readFile en data) t (or_introl Hno))).
      reflexivity. }
    split; [rewrite !E; reflexivity|].
    intros e He. rewrite E. unfold try_catch_with.
    erewrite emit_receiver; [|exact He|reflexivity]. reflexivity.
  - intros ev cb cb'. unfold on. cbn [listeners trace].
    rewrite insert_insert_eq. reflexivity.
Qed.

(** X17, exercised: only an end listener, and a file that does not exist. *)
Lemma stream_without_data_listener_witness :
  let env := {| encode := fun _ _ => Returns "meta"%string;
                readFileSync := fun _ => Throws (JsError "ENOENT") |} in
  let data := {| filePath := Some (JString "/tmp/a"); key := None; name := None |} in
  let t := on "end" (receiver 2) {| listeners := ∅; trace := [] |} in
  deliver env data t
  = (Returns tt, {| listeners := listeners t;
                    trace := [Called "end" 2 NoArgument] |}).
Proof.
  intros env data t.
  destruct (stream_without_data_listener env env data t) as (_ & Hno & _).
  assert (Hd : listeners t !! "data" = None) by reflexivity.
  destruct (Hno Hd) as [_ Hend].
  assert (He : listeners t !! "end" = Some (receiver 2)) by reflexivity.
  rewrite (Hend 2%nat He). reflexivity.
Defined.

End AppIpcProperties.
